(** * LinkedBST: the link-based binary search tree of linkedbst.py

    The tree engine of the repository (class [LinkedBST]) is embedded as
    Rocq functions.  Items are Python integers ([Z]): [range_find] tests
    membership in a [range], which only holds integers.  A tree of linked
    [BSTNode] objects owned by their parent is an inductive [tree]; the
    collection object is a record of its two attributes.  Methods that
    mutate the object pass the object explicitly and return the outcome of
    the call together with the object as the call leaves it, so that a
    raised exception still shows what happened to the tree.

    [rebalance] is the one method whose nodes are shared between several
    Python lists while they are being linked; it is embedded over an
    explicit store of nodes, addressed by allocation order, and the
    linked structure is read back from the store at the end.

    Not modelled: the interpreter's recursion limit (the recursive
    helpers are total here) and the rounding of [lenght/2] to a float
    before [floor], which is exact for every list length. *)

From Stdlib Require Import ZArith List Lia Permutation Sorted.
From stdpp Require Import base list.
Import ListNotations.
Local Open Scope Z_scope.

(** ** Outcomes *)

Inductive exn := KeyError | AttributeError | IndexError | ValueError.

(** A call returns a value, raises, or (in the model only) exhausts the
    step budget given to a loop. *)
Inductive result (A : Type) :=
| Return (a : A)
| Raise (e : exn)
| OutOfFuel.

Arguments Return {A} a.
Arguments Raise {A} e.
Arguments OutOfFuel {A}.

#[global] Instance result_ret : MRet result := fun A a => Return a.

#[global] Instance result_bind : MBind result := fun A B f m =>
  match m with
  | Return a => f a
  | Raise e => Raise e
  | OutOfFuel => OutOfFuel
  end.

(** The values [num_children] can return: [False] for an absent position,
    an integer otherwise.  Python compares a bool with an int through its
    integer value. *)
Inductive pyval := PyBool (b : bool) | PyInt (z : Z).

Definition py_int (v : pyval) : Z :=
  match v with
  | PyBool true => 1
  | PyBool false => 0
  | PyInt z => z
  end.

Definition py_eq (a b : pyval) : bool := py_int a =? py_int b.

(** [max] of the heights of the children; Python raises [ValueError] on
    an empty sequence. *)
Definition py_max (l : list Z) : result Z :=
  match l with
  | [] => Raise ValueError
  | x :: xs => Return (fold_left Z.max xs x)
  end.

(** ** Data model *)

(** Modelled from the spec: the node class [BSTNode] (bstnode.py is not
    part of the sources): a stored [data] and owning [left] / [right] links
    to a child node or to absence ([None]). *)
Inductive tree :=
| Absent
| BSTNode (left : tree) (data : Z) (right : tree).

(** The collection: the root link and the size counter kept by the base
    class. *)
Record LinkedBST := mkBST { _root : tree; _size : Z }.

(** Modelled from the spec: the base class [AbstractCollection]
    (abstractcollection.py is not part of the sources) keeps the size
    counter; a fresh collection has size 0 and [isEmpty] tests the
    counter.  ([__iter__] itself calls [isEmpty], so [isEmpty] cannot be
    defined through iteration.) *)
Definition isEmpty (self : LinkedBST) : bool := _size self =? 0.

Definition empty_tree : LinkedBST := mkBST Absent 0.

(** A method: the object goes in, the outcome and the object come out. *)
Definition method (A : Type) : Type := LinkedBST -> result A * LinkedBST.

(** ** Accessors *)

(** [inorder]: the helper appends to the shared list [lyst]. *)
Fixpoint inorder_recurse (node : tree) (lyst : list Z) : list Z :=
  match node with
  | Absent => lyst
  | BSTNode l d r => inorder_recurse r (inorder_recurse l lyst ++ [d])
  end.

Definition inorder (self : LinkedBST) : list Z :=
  inorder_recurse (_root self) [].

Fixpoint find_recurse (item : Z) (node : tree) : option Z :=
  match node with
  | Absent => None
  | BSTNode l d r =>
      if item =? d then Some d
      else if item <? d then find_recurse item l
      else find_recurse item r
  end.

Definition find (self : LinkedBST) (item : Z) : option Z :=
  find_recurse item (_root self).

(** [__contains__] *)
Definition contains (self : LinkedBST) (item : Z) : bool :=
  match find self item with
  | Some _ => true
  | None => false
  end.

(** ** Mutators *)

Definition clear (self : LinkedBST) : LinkedBST := mkBST Absent 0.

(** The helper of [add]; it reads [node.data], which fails on [None]. *)
Fixpoint add_recurse (item : Z) (node : tree) : result tree :=
  match node with
  | Absent => Raise AttributeError
  | BSTNode l d r =>
      if item <? d then
        match l with
        | Absent => Return (BSTNode (BSTNode Absent item Absent) d r)
        | _ => l' ← add_recurse item l; Return (BSTNode l' d r)
        end
      else
        match r with
        | Absent => Return (BSTNode l d (BSTNode Absent item Absent))
        | _ => r' ← add_recurse item r; Return (BSTNode l d r')
        end
  end.

Definition add (item : Z) : method unit := fun self =>
  if isEmpty self then
    (Return tt, mkBST (BSTNode Absent item Absent) (_size self + 1))
  else
    match add_recurse item (_root self) with
    | Return t => (Return tt, mkBST t (_size self + 1))
    | Raise e => (Raise e, self)
    | OutOfFuel => (OutOfFuel, self)
    end.

(** The walk of [lift] from [top.left] to the right-most node: its datum,
    and the subtree with that node replaced by its left child.  ([parent
    == top] compares node objects, by identity: it holds exactly when the
    walk made no step.) *)
Fixpoint lift_walk (current_node : tree) : result (Z * tree) :=
  match current_node with
  | Absent => Raise AttributeError
  | BSTNode l d r =>
      match r with
      | Absent => Return (d, l)
      | _ => '(m, r') ← lift_walk r; Return (m, BSTNode l d r')
      end
  end.

Definition lift (top : tree) : result tree :=
  match top with
  | Absent => Raise AttributeError
  | BSTNode l _ r => '(m, l') ← lift_walk l; Return (BSTNode l' m r)
  end.

(** The descent of [remove] from the sentinel's left link: [None] when
    the loop runs off the tree, otherwise the removed item and what the
    link it came through points to afterwards. *)
Fixpoint remove_descend (item : Z) (current_node : tree)
  : result (option (Z * tree)) :=
  match current_node with
  | Absent => Return None
  | BSTNode l d r =>
      if d =? item then
        match l, r with
        | BSTNode _ _ _, BSTNode _ _ _ =>
            top ← lift current_node; Return (Some (d, top))
        | Absent, _ => Return (Some (d, r))
        | _, Absent => Return (Some (d, l))
        end
      else if d >? item then
        o ← remove_descend item l;
        Return (match o with
                | Some (x, l') => Some (x, BSTNode l' d r)
                | None => None
                end)
      else
        o ← remove_descend item r;
        Return (match o with
                | Some (x, r') => Some (x, BSTNode l d r')
                | None => None
                end)
  end.

Definition remove (item : Z) : method (option Z) := fun self =>
  if negb (contains self item) then (Raise KeyError, self)
  else if isEmpty self then (Return None, self)
  else
    match remove_descend item (_root self) with
    | Raise e => (Raise e, self)
    | OutOfFuel => (OutOfFuel, self)
    | Return None => (Return None, self)
    | Return (Some (item_removed, pre_root_left)) =>
        let size' := _size self - 1 in
        (Return (Some item_removed),
         mkBST (if size' =? 0 then Absent else pre_root_left) size')
    end.

Fixpoint replace_probe (item new_item : Z) (probe : tree)
  : option (Z * tree) :=
  match probe with
  | Absent => None
  | BSTNode l d r =>
      if d =? item then Some (d, BSTNode l new_item r)
      else if d >? item then
        match replace_probe item new_item l with
        | Some (old, l') => Some (old, BSTNode l' d r)
        | None => None
        end
      else
        match replace_probe item new_item r with
        | Some (old, r') => Some (old, BSTNode l d r')
        | None => None
        end
  end.

Definition replace (item new_item : Z) : method (option Z) := fun self =>
  match replace_probe item new_item (_root self) with
  | Some (old_data, t) => (Return (Some old_data), mkBST t (_size self))
  | None => (Return None, self)
  end.

(** ** Structure and height *)

Definition children (position : tree) : list tree :=
  match position with
  | Absent => []
  | BSTNode l _ r =>
      (match l with Absent => [] | _ => [l] end)
        ++ (match r with Absent => [] | _ => [r] end)
  end.

Definition num_children (position : tree) : pyval :=
  match position with
  | Absent => PyBool false
  | BSTNode l _ r =>
      let number := 2 in
      let number := match l with Absent => number - 1 | _ => number end in
      let number := match r with Absent => number - 1 | _ => number end in
      PyInt number
  end.

Definition is_leaf (position : tree) : bool :=
  py_eq (num_children position) (PyInt 0).

(** [height1]: the heights of the existing children are collected in the
    order of [children] and their maximum is taken. *)
Fixpoint height1 (position : tree) : result Z :=
  if is_leaf position then Return 0
  else
    hs ← match position with
         | Absent => Return []
         | BSTNode l _ r =>
             match l, r with
             | Absent, Absent => Return []
             | BSTNode _ _ _, Absent => hl ← height1 l; Return [hl]
             | Absent, BSTNode _ _ _ => hr ← height1 r; Return [hr]
             | BSTNode _ _ _, BSTNode _ _ _ =>
                 hl ← height1 l; hr ← height1 r; Return [hl; hr]
             end
         end;
    m ← py_max hs;
    Return (1 + m).

(** [height(position)]; an absent position stands for the root. *)
Definition height (self : LinkedBST) (position : tree) : result Z :=
  match position with
  | Absent => height1 (_root self)
  | _ => height1 position
  end.

(** ** Range query *)

(** [x in range(start, stop)] for integers. *)
Definition in_range (x start stop : Z) : bool := (start <=? x) && (x <? stop).

Definition range_find (self : LinkedBST) (low high : Z) : list Z :=
  fold_left
    (fun items node_item =>
       if in_range node_item low (high + 1) then items ++ [node_item]
       else items)
    (inorder self) [].

(** ** Rebalance *)

(** [_subtree_inorder]: the positions of the subtree at [position], left
    subtree first.  It reads [position.left], which fails on [None]. *)
Fixpoint subtree_inorder_walk (position : tree) : result (list tree) :=
  match position with
  | Absent => Raise AttributeError
  | BSTNode l _ r =>
      before ← match l with
               | Absent => Return []
               | _ => subtree_inorder_walk l
               end;
      after ← match r with
              | Absent => Return []
              | _ => subtree_inorder_walk r
              end;
      Return (before ++ position :: after)
  end.

(** An absent [position] stands for the root. *)
Definition _subtree_inorder (self : LinkedBST) (position : tree)
  : result (list tree) :=
  subtree_inorder_walk
    (match position with Absent => _root self | _ => position end).

(** [item.data] *)
Definition get_data (item : tree) : result Z :=
  match item with
  | Absent => Raise AttributeError
  | BSTNode _ d _ => Return d
  end.

(** [sorted] on integers: ascending. *)
Fixpoint insert_sorted (x : Z) (l : list Z) : list Z :=
  match l with
  | [] => [x]
  | y :: l' => if x <=? y then x :: l else y :: insert_sorted x l'
  end.

Definition sorted (l : list Z) : list Z := foldr insert_sorted [] l.

(** [list.pop(i)]: a negative index counts from the end; an index out of
    range raises [IndexError]. *)
Definition pop (items : list Z) (i : Z) : result (Z * list Z) :=
  let n := Z.of_nat (length items) in
  let j := if i <? 0 then i + n else i in
  if (0 <=? j) && (j <? n) then
    match items !! Z.to_nat j with
    | Some x => Return (x, delete (Z.to_nat j) items)
    | None => Raise IndexError
    end
  else Raise IndexError.

(** The nodes [rebalance] creates live in a store; a node's address is
    its allocation rank. *)
Record cell := mkCell {
  node_data : Z;
  node_left : option nat;
  node_right : option nat
}.

Abbreviation store := (list cell).

(** [BSTNode(x)] *)
Definition new_node (st : store) (x : Z) : store * nat :=
  (st ++ [mkCell x None None], length st).

(** [node.left = v] and [node.right = v] *)
Definition set_left (st : store) (node : nat) (v : option nat) : store :=
  alter (fun c => mkCell (node_data c) v (node_right c)) node st.

Definition set_right (st : store) (node : nat) (v : option nat) : store :=
  alter (fun c => mkCell (node_data c) (node_left c) v) node st.

(** The local variables the loops of [rebalance] share. *)
Record frame := mkFrame {
  heap : store;
  items : list Z;
  lenght : Z;
  new_nodes : list nat
}.

(** The list object the name [nodes] is bound to: a list of its own
    (the initial [[self.root]]), or the very list [new_nodes] names
    (after [nodes = new_nodes]), which grows while it is iterated. *)
Inductive nodes_ref := OwnList (l : list nat) | NewNodes.

Definition deref (nodes : nodes_ref) (f : frame) : list nat :=
  match nodes with
  | OwnList l => l
  | NewNodes => new_nodes f
  end.

Inductive flow := Continue | Break.

(** [floor(lenght/2)]: true division then floor, which on integers is
    floor division. *)
Definition floor_half (lenght : Z) : Z := lenght / 2.

(** One run of the body of [for node in nodes]. *)
Definition for_body (node : nat) (f : frame) : result flow * frame :=
  if lenght f =? 0 then (Return Break, f)
  else
    match pop (items f) (floor_half (lenght f)) with
    | Raise e => (Raise e, f)
    | OutOfFuel => (OutOfFuel, f)
    | Return (x, its) =>
        let '(st, a) := new_node (heap f) x in
        let f1 := mkFrame (set_left st node (Some a)) its (lenght f - 1)
                          (new_nodes f) in
        if lenght f1 =? 0 then (Return Break, f1)
        else
          match pop (items f1) (floor_half (lenght f1)) with
          | Raise e => (Raise e, f1)
          | OutOfFuel => (OutOfFuel, f1)
          | Return (y, its') =>
              let '(st', b) := new_node (heap f1) y in
              (Return Continue,
               mkFrame (set_right st' node (Some b)) its' (lenght f1 - 1)
                       (new_nodes f1 ++ [a; b]))
          end
    end.

(** [for node in nodes]: the iterator holds an index into the list
    object and looks at the list as it is at each step. *)
Fixpoint for_nodes (fuel : nat) (nodes : nodes_ref) (i : nat) (f : frame)
  : result unit * frame :=
  match fuel with
  | O => (OutOfFuel, f)
  | S fuel' =>
      match deref nodes f !! i with
      | None => (Return tt, f)
      | Some node =>
          match for_body node f with
          | (Return Continue, f') => for_nodes fuel' nodes (S i) f'
          | (Return Break, f') => (Return tt, f')
          | (Raise e, f') => (Raise e, f')
          | (OutOfFuel, f') => (OutOfFuel, f')
          end
      end
  end.

(** [while lenght > 0: for ...; nodes = new_nodes] *)
Fixpoint while_lenght (fuel : nat) (nodes : nodes_ref) (f : frame)
  : result unit * frame :=
  match fuel with
  | O => (OutOfFuel, f)
  | S fuel' =>
      if lenght f >? 0 then
        match for_nodes (S (Z.to_nat (lenght f))) nodes 0 f with
        | (Return _, f') => while_lenght fuel' NewNodes f'
        | (Raise e, f') => (Raise e, f')
        | (OutOfFuel, f') => (OutOfFuel, f')
        end
      else (Return tt, f)
  end.

(** The linked structure below an address, as a tree. *)
Fixpoint read_tree (fuel : nat) (st : store) (p : option nat) {struct fuel}
  : option tree :=
  match p with
  | None => Some Absent
  | Some a =>
      match fuel with
      | O => None
      | S fuel' =>
          c ← st !! a;
          l ← read_tree fuel' st (node_left c);
          r ← read_tree fuel' st (node_right c);
          Some (BSTNode l (node_data c) r)
      end
  end.

Definition rebalance : method unit := fun self =>
  match positions ← _subtree_inorder self Absent; mapM get_data positions with
  | Raise e => (Raise e, self)
  | OutOfFuel => (OutOfFuel, self)
  | Return datas =>
      let items := sorted datas in
      let self := clear self in
      let lenght := Z.of_nat (length items) - 1 in
      match pop items (floor_half lenght) with
      | Raise e => (Raise e, self)
      | OutOfFuel => (OutOfFuel, self)
      | Return (x, items) =>
          let '(st, root) := new_node [] x in
          let fuel := S (length items) in
          let '(res, f) :=
            while_lenght fuel (OwnList [root]) (mkFrame st items lenght []) in
          match read_tree fuel (heap f) (Some root) with
          | Some t => (res, mkBST t (_size self))
          | None => (OutOfFuel, self)
          end
      end
  end.

(** ** Sequences of calls *)

Inductive op := Add (item : Z) | Remove (item : Z) | Rebalance.

(** The object after one call, whether the call returned or raised. *)
Definition exec (o : op) (self : LinkedBST) : LinkedBST :=
  match o with
  | Add item => (add item self).2
  | Remove item => (remove item self).2
  | Rebalance => (rebalance self).2
  end.

Definition run (ops : list op) (self : LinkedBST) : LinkedBST :=
  fold_left (fun s o => exec o s) ops self.

(** The states a client can bring a fresh tree into. *)
Inductive reachable : LinkedBST -> Prop :=
| reachable_empty : reachable empty_tree
| reachable_exec o self : reachable self -> reachable (exec o self).

(** ** Iteration and neighbour queries *)

(** Modelled from the spec: the auxiliary stack [LinkedStack]
    (linkedstack.py is not part of the sources) is last in, first out; it
    is a list with its top first.  The loop of [__iter__] pops a node,
    yields its datum (which fails on [None]) and pushes the right child,
    then the left child, when they exist. *)
Fixpoint iter_loop (fuel : nat) (stack : list tree) (yielded : list Z)
  : result (list Z) :=
  match fuel with
  | O => OutOfFuel
  | S fuel' =>
      match stack with
      | [] => Return yielded
      | node :: stack =>
          match node with
          | Absent => Raise AttributeError
          | BSTNode l d r =>
              let stack := match r with Absent => stack | _ => r :: stack end in
              let stack := match l with Absent => stack | _ => l :: stack end in
              iter_loop fuel' stack (yielded ++ [d])
          end
      end
  end.

(** [__iter__], run to its end: the items in the order they are yielded.
    The loop pops once per node, so one step more than the number of
    nodes lets it finish. *)
Definition __iter__ (self : LinkedBST) : result (list Z) :=
  if negb (isEmpty self) then
    iter_loop (S (length (inorder self))) [_root self] []
  else Return [].

(** One step of the scan of [successor]: [None] stands for no candidate
    yet. *)
Definition successor_step (item : Z) (successor : option Z) (node_item : Z)
  : option Z :=
  if node_item >? item then
    let successor :=
      match successor with None => Some node_item | Some _ => successor end in
    match successor with
    | Some s => if node_item <? s then Some node_item else successor
    | None => successor
    end
  else successor.

Definition successor (self : LinkedBST) (item : Z) : option Z :=
  fold_left (successor_step item) (inorder self) None.

Definition predecessor_step (item : Z) (predecessor : option Z) (node_item : Z)
  : option Z :=
  if node_item <? item then
    let predecessor :=
      match predecessor with None => Some node_item | Some _ => predecessor end in
    match predecessor with
    | Some p => if node_item >? p then Some node_item else predecessor
    | None => predecessor
    end
  else predecessor.

Definition predecessor (self : LinkedBST) (item : Z) : option Z :=
  fold_left (predecessor_step item) (inorder self) None.

(** ** Specification vocabulary *)

(** The items of a tree, left subtree first. *)
Fixpoint elements (t : tree) : list Z :=
  match t with
  | Absent => []
  | BSTNode l d r => elements l ++ d :: elements r
  end.

(** The order invariant as the data model states it: strictly smaller
    items on the left, greater or equal items on the right. *)
Fixpoint bst_order (t : tree) : Prop :=
  match t with
  | Absent => True
  | BSTNode l d r =>
      bst_order l /\ bst_order r
      /\ Forall (fun x => x < d) (elements l)
      /\ Forall (fun x => d <= x) (elements r)
  end.

(** The order the descent of [find], [add] and [remove] relies on; it
    lets equal items sit on the left as well. *)
Fixpoint ordered (t : tree) : Prop :=
  match t with
  | Absent => True
  | BSTNode l d r =>
      ordered l /\ ordered r
      /\ Forall (fun x => x <= d) (elements l)
      /\ Forall (fun x => d <= x) (elements r)
  end.

(** A collection whose counter and links agree and whose items are in
    search order. *)
Definition consistent (self : LinkedBST) : Prop :=
  _size self = Z.of_nat (length (inorder self)) /\ ordered (_root self).

(** The height of a tree as a number of links on the longest path from
    the root, with -1 for the absent tree. *)
Fixpoint depth (t : tree) : Z :=
  match t with
  | Absent => -1
  | BSTNode l _ r => 1 + Z.max (depth l) (depth r)
  end.

(** A store of [c] nodes linked level by level: the node allocated
    [j]-th has the nodes allocated [2j+1]-th and [2j+2]-th as its left and
    right child, as far as they exist. *)
Definition child (c a : nat) : option nat :=
  if decide (a < c)%nat then Some a else None.

Definition level_order (c : nat) (st : store) : Prop :=
  length st = c
  /\ forall (j : nat) (cl : cell),
       st !! j = Some cl ->
       node_left cl = child c (2 * j + 1)
       /\ node_right cl = child c (2 * j + 2).

(** The addresses below the node allocated [a]-th in such a store, left
    subtree first, and the datum a store holds at an address. *)
Fixpoint subtree_addrs (fuel c a : nat) : list nat :=
  match fuel with
  | O => []
  | S fuel' =>
      if decide (a < c)%nat
      then subtree_addrs fuel' c (2 * a + 1)
             ++ a :: subtree_addrs fuel' c (2 * a + 2)
      else []
  end.

Definition data_at (st : store) (j : nat) : Z :=
  match st !! j with
  | Some cl => node_data cl
  | None => 0
  end.

(** Node [j] lies below node [a]: [j + 1] has the binary digits of
    [a + 1] followed by [d] more digits. *)
Definition below (a j : nat) : Prop :=
  exists d : nat, ((a + 1) * 2 ^ d <= j + 1 < (a + 2) * 2 ^ d)%nat.

(** What the loops of [rebalance] keep true when they reach the node
    allocated [k]-th: all nodes before it have both children, and
    [lenght] counts the items still to place. *)
Definition loop_inv (k : nat) (f : frame) : Prop :=
  level_order (2 * k + 1) (heap f)
  /\ lenght f = Z.of_nat (length (items f)).

(** The items of a tree, each node before its subtrees. *)
Fixpoint preorder (t : tree) : list Z :=
  match t with
  | Absent => []
  | BSTNode l d r => d :: preorder l ++ preorder r
  end.

(** The degenerate tree: every node has a right child only. *)
Fixpoint chain (l : list Z) : tree :=
  match l with
  | [] => Absent
  | x :: l' => BSTNode Absent x (chain l')
  end.

(** The order in which the loops of [rebalance] take the items out of
    the sorted list: always the middle of what is left. *)
Fixpoint pop_seq (fuel : nat) (its : list Z) : list Z :=
  match fuel with
  | O => []
  | S fuel' =>
      match pop its (floor_half (Z.of_nat (length its))) with
      | Return (x, its') => x :: pop_seq fuel' its'
      | _ => []
      end
  end.

(** * Properties *)

(** ** Traversal *)

Lemma inorder_recurse_elements (t : tree) (lyst : list Z) :
  inorder_recurse t lyst = lyst ++ elements t.
Proof.
  revert lyst. induction t as [|l IHl d r IHr]; intros lyst; simpl.
  - now rewrite app_nil_r.
  - rewrite IHr, IHl, <- !app_assoc. reflexivity.
Qed.

Lemma inorder_elements (self : LinkedBST) :
  inorder self = elements (_root self).
Proof. unfold inorder. apply inorder_recurse_elements. Qed.

Lemma reachable_run (ops : list op) (self : LinkedBST) :
  reachable self -> reachable (run ops self).
Proof.
  revert self. induction ops as [|o ops IH]; intros self Hr; simpl.
  - exact Hr.
  - apply IH. now constructor.
Qed.

(** ** Height of the empty tree *)

(** C10: on the empty tree (absent root) [height()] returns 0 and does not
    fail: [num_children(None)] is [False], which compares equal to 0, so
    [is_leaf(None)] holds and the helper returns 0 at the absent root. *)
Theorem height_empty_tree (size : Z) :
  num_children Absent = PyBool false
  /\ py_eq (PyBool false) (PyInt 0) = true
  /\ is_leaf Absent = true
  /\ height (mkBST Absent size) Absent = Return 0.
Proof. repeat split. Qed.

(** ** Replace *)


(** ** Rebalance on concrete trees *)

(** C8: [rebalance()] on the empty tree does not complete: the walk over
    the positions reads [position.left] of the absent root. *)
Theorem rebalance_empty_raises :
  rebalance empty_tree = (Raise AttributeError, empty_tree).
Proof. reflexivity. Qed.

(** C1: on the tree built by [add(1); add(2)] the inorder sequence is
    [1, 2] before [rebalance()] and [2, 1] after it. *)
Theorem rebalance_changes_inorder :
  let self := run [Add 1; Add 2] empty_tree in
  reachable self
  /\ inorder self = [1; 2]
  /\ (rebalance self).1 = Return tt
  /\ inorder (rebalance self).2 = [2; 1].
Proof.
  split; [apply reachable_run; constructor|].
  vm_compute. intuition.
Qed.

(** C2: after [add(1); rebalance()] the size counter is 0 while the
    inorder traversal yields one item. *)
Theorem rebalance_forgets_size :
  let self := run [Add 1; Rebalance] empty_tree in
  reachable self
  /\ _size self = 0
  /\ inorder self = [1].
Proof.
  split; [apply reachable_run; constructor|].
  vm_compute. intuition.
Qed.

(** After [add(1); add(2); rebalance()] the root holds 1 and its left
    child holds 2: the rebuilt tree is not in search order either. *)
Lemma rebalance_breaks_bst_order :
  let self := run [Add 1; Add 2; Rebalance] empty_tree in
  reachable self
  /\ _root self = BSTNode (BSTNode Absent 2 Absent) 1 Absent
  /\ ~ bst_order (_root self).
Proof.
  split; [apply reachable_run; constructor|].
  split; [vm_compute; reflexivity|].
  vm_compute. intros (_ & _ & H & _).
  apply Forall_inv in H. discriminate H.
Qed.

(** ** Search order and sortedness *)

Lemma sorted_app (l1 l2 : list Z) :
  StronglySorted Z.le (l1 ++ l2) <->
  StronglySorted Z.le l1 /\ StronglySorted Z.le l2
  /\ Forall (fun x => Forall (fun y => x <= y) l2) l1.
Proof.
  induction l1 as [|a l1 IH]; simpl.
  - split; [intros H; repeat split; auto; constructor|tauto].
  - split.
    + intros H. apply StronglySorted_inv in H as [H1 H2].
      apply IH in H1 as (Ha & Hb & Hc).
      apply Forall_app in H2 as [H2 H3].
      repeat split; auto; constructor; auto.
    + intros (Ha & Hb & Hc).
      apply StronglySorted_inv in Ha as [Ha1 Ha2].
      apply Forall_cons in Hc as [Hc1 Hc2].
      constructor; [apply IH; auto|].
      apply Forall_app; auto.
Qed.

Lemma ordered_sorted (t : tree) :
  ordered t <-> StronglySorted Z.le (elements t).
Proof.
  induction t as [|l IHl d r IHr]; simpl.
  - split; [constructor|trivial].
  - rewrite sorted_app, IHl, IHr. split.
    + intros (Hl & Hr & Hld & Hrd). repeat split; auto.
      * constructor; auto.
      * eapply List.Forall_impl; [|exact Hld]. intros x Hx. simpl in Hx.
        constructor; [exact Hx|].
        eapply List.Forall_impl; [|exact Hrd]. intros y Hy. simpl in Hy. lia.
    + intros (Hl & Hdr & Hall).
      apply StronglySorted_inv in Hdr as [Hr Hrd].
      repeat split; auto.
      eapply List.Forall_impl; [|exact Hall]. intros x Hx. simpl in Hx.
      now apply Forall_inv in Hx.
Qed.

Lemma bst_order_ordered (t : tree) : bst_order t -> ordered t.
Proof.
  induction t as [|l IHl d r IHr]; simpl; [trivial|].
  intros (Hl & Hr & Hld & Hrd). repeat split; auto.
  eapply List.Forall_impl; [|exact Hld]. intros x Hx. simpl in Hx. lia.
Qed.

(** ** Range query *)

Lemma range_find_fold (low high : Z) (l acc : list Z) :
  fold_left
    (fun items node_item =>
       if in_range node_item low (high + 1) then items ++ [node_item]
       else items) l acc
  = acc ++ List.filter (fun x => (low <=? x) && (x <=? high)) l.
Proof.
  revert acc. induction l as [|x l IH]; intros acc; simpl.
  - now rewrite app_nil_r.
  - rewrite IH. unfold in_range.
    replace (x <? high + 1) with (x <=? high)
      by (destruct (Z.leb_spec x high), (Z.ltb_spec x (high + 1)); lia).
    destruct ((low <=? x) && (x <=? high)); [|reflexivity].
    now rewrite <- app_assoc.
Qed.




(** ** Search *)

Lemma elements_nil (t : tree) : elements t = [] -> t = Absent.
Proof.
  destruct t as [|l d r]; [reflexivity|]. simpl. intros H.
  now apply app_eq_nil in H as [_ H].
Qed.

Lemma find_recurse_Some (x y : Z) (t : tree) :
  find_recurse x t = Some y -> y = x /\ In x (elements t).
Proof.
  induction t as [|l IHl d r IHr]; simpl; [discriminate|].
  destruct (Z.eqb_spec x d) as [->|Hne].
  - intros [= <-]. split; [reflexivity|]. apply in_or_app. right. now left.
  - destruct (x <? d); intros H.
    + apply IHl in H as [-> H]. split; [reflexivity|].
      apply in_or_app. now left.
    + apply IHr in H as [-> H]. split; [reflexivity|].
      apply in_or_app. right. now right.
Qed.

Lemma find_recurse_In (x : Z) (t : tree) :
  ordered t -> In x (elements t) -> find_recurse x t = Some x.
Proof.
  induction t as [|l IHl d r IHr]; simpl; [tauto|].
  intros (Hl & Hr & Hld & Hrd) Hin.
  destruct (Z.eqb_spec x d) as [->|Hne]; [reflexivity|].
  rewrite List.Forall_forall in Hld, Hrd.
  apply in_app_or in Hin as [Hin|[Hin|Hin]].
  - specialize (Hld _ Hin). simpl in Hld.
    destruct (Z.ltb_spec x d); [auto|lia].
  - congruence.
  - specialize (Hrd _ Hin). simpl in Hrd.
    destruct (Z.ltb_spec x d); [lia|auto].
Qed.

Lemma contains_In (self : LinkedBST) (x : Z) :
  ordered (_root self) ->
  contains self x = true <-> In x (inorder self).
Proof.
  intros Ho. unfold contains, find. rewrite inorder_elements. split.
  - destruct (find_recurse x (_root self)) as [y|] eqn:E; [|discriminate].
    intros _. now apply find_recurse_Some in E.
  - intros Hin. now rewrite (find_recurse_In _ _ Ho Hin).
Qed.

(** ** Insertion *)

Lemma add_recurse_spec (x : Z) (t : tree) :
  t <> Absent ->
  exists t', add_recurse x t = Return t'
             /\ Permutation (elements t') (x :: elements t)
             /\ (ordered t -> ordered t').
Proof.
  induction t as [|l IHl d r IHr]; [congruence|]. intros _. simpl.
  destruct (Z.ltb_spec x d) as [Hlt|Hge].
  - destruct l as [|ll ld lr].
    + eexists. split; [reflexivity|]. split; [reflexivity|].
      simpl. intros (_ & Hr & _ & Hrd). repeat split; auto.
      constructor; [lia|constructor].
    + destruct IHl as (l' & E & Hp & Ho); [congruence|].
      rewrite E. eexists. split; [reflexivity|]. split.
      * change (elements (BSTNode l' d r)) with (elements l' ++ d :: elements r).
        rewrite Hp. reflexivity.
      * intros (Hl & Hr & Hld & Hrd).
        change (ordered l' /\ ordered r
                /\ Forall (fun y => y <= d) (elements l')
                /\ Forall (fun y => d <= y) (elements r)).
        repeat split; auto.
        eapply Permutation_Forall; [symmetry; exact Hp|].
        constructor; [lia|exact Hld].
  - destruct r as [|rl rd rr].
    + eexists. split; [reflexivity|]. split.
      * simpl. transitivity ((elements l ++ [d]) ++ [x]).
        -- now rewrite <- app_assoc.
        -- apply (Permutation_app_comm _ [x]).
      * simpl. intros (Hl & _ & Hld & _). repeat split; auto.
    + destruct IHr as (r' & E & Hp & Ho); [congruence|].
      rewrite E. eexists. split; [reflexivity|]. split.
      * change (elements (BSTNode l d r')) with (elements l ++ d :: elements r').
        rewrite Hp. rewrite (Permutation_middle _ _ x).
        apply Permutation_app_head. apply perm_swap.
      * intros (Hl & Hr & Hld & Hrd).
        change (ordered l /\ ordered r'
                /\ Forall (fun y => y <= d) (elements l)
                /\ Forall (fun y => d <= y) (elements r')).
        repeat split; auto.
        eapply Permutation_Forall; [symmetry; exact Hp|].
        constructor; [lia|exact Hrd].
Qed.

Lemma add_spec (x : Z) (self : LinkedBST) :
  consistent self ->
  exists self', add x self = (Return tt, self')
                /\ _size self' = _size self + 1
                /\ Permutation (inorder self') (x :: inorder self)
                /\ consistent self'.
Proof.
  intros [Hsz Ho]. unfold add, isEmpty.
  destruct (Z.eqb_spec (_size self) 0) as [Hz|Hnz].
  - eexists. split; [reflexivity|].
    assert (Hnil : inorder self = [])
      by (apply length_zero_iff_nil; lia).
    rewrite Hnil. split; [reflexivity|]. split; [reflexivity|].
    split; simpl; [lia|]. repeat split; constructor.
  - assert (Hroot : _root self <> Absent).
    { intros E. rewrite inorder_elements, E in Hsz. simpl in Hsz. lia. }
    destruct (add_recurse_spec x _ Hroot) as (t' & E & Hp & Ho').
    rewrite E. eexists. split; [reflexivity|].
    rewrite !inorder_elements in *. simpl.
    split; [reflexivity|]. split; [exact Hp|].
    split; [|auto]. simpl. rewrite inorder_elements. simpl.
    rewrite (Permutation_length Hp). simpl length. lia.
Qed.

(** ** Removal *)

Lemma lift_walk_spec (t : tree) :
  t <> Absent ->
  exists m t', lift_walk t = Return (m, t') /\ elements t = elements t' ++ [m].
Proof.
  induction t as [|l IHl d r IHr]; [congruence|]. intros _. simpl.
  destruct r as [|rl rd rr].
  - exists d, l. split; reflexivity.
  - destruct IHr as (m & r' & E & He); [congruence|].
    rewrite E. exists m, (BSTNode l d r'). split; [reflexivity|].
    rewrite He. simpl. now rewrite <- app_assoc.
Qed.

(** The descent of [remove] takes the path of [find]; the item it meets
    leaves the inorder sequence and nothing else moves. *)
Lemma remove_descend_spec (x y : Z) (t : tree) :
  find_recurse x t = Some y ->
  exists t', remove_descend x t = Return (Some (x, t'))
             /\ exists pre post, elements t = pre ++ x :: post
                                 /\ elements t' = pre ++ post.
Proof.
  induction t as [|l IHl d r IHr]; simpl; [discriminate|].
  rewrite (Z.eqb_sym x d), Z.gtb_ltb.
  destruct (Z.eqb_spec d x) as [->|Hne].
  - intros _. destruct l as [|ll ld lr].
    + eexists. split; [reflexivity|]. exists [], (elements r). split; reflexivity.
    + destruct r as [|rl rd rr].
      * eexists. split; [reflexivity|].
        exists (elements (BSTNode ll ld lr)), []. split; [reflexivity|].
        now rewrite app_nil_r.
      * destruct (lift_walk_spec (BSTNode ll ld lr)) as (m & l' & E & He);
          [congruence|].
        unfold lift. rewrite E. eexists. split; [reflexivity|].
        exists (elements l' ++ [m]), (elements (BSTNode rl rd rr)).
        rewrite He. split; [reflexivity|].
        simpl. now rewrite <- app_assoc.
  - destruct (x <? d); intros H.
    + destruct (IHl H) as (l' & E & pre & post & He & He').
      rewrite E. eexists. split; [reflexivity|].
      exists pre, (post ++ d :: elements r). simpl.
      rewrite He, He', <- !app_assoc. split; reflexivity.
    + destruct (IHr H) as (r' & E & pre & post & He & He').
      rewrite E. eexists. split; [reflexivity|].
      exists (elements l ++ d :: pre), post. simpl.
      rewrite He, He', <- !app_assoc. split; reflexivity.
Qed.

Lemma sorted_remove_middle (pre post : list Z) (x : Z) :
  StronglySorted Z.le (pre ++ x :: post) -> StronglySorted Z.le (pre ++ post).
Proof.
  rewrite !sorted_app. intros (Hp & Hx & Hall).
  apply StronglySorted_inv in Hx as [Hpost _]. repeat split; auto.
  eapply List.Forall_impl; [|exact Hall]. intros a Ha. simpl in Ha.
  now apply Forall_inv_tail in Ha.
Qed.

Lemma remove_present (x : Z) (self : LinkedBST) :
  consistent self -> In x (inorder self) ->
  exists self', remove x self = (Return (Some x), self')
                /\ _size self' = _size self - 1
                /\ Permutation (inorder self) (x :: inorder self')
                /\ consistent self'.
Proof.
  intros [Hsz Ho] Hin. unfold remove.
  assert (Hc : contains self x = true) by now apply contains_In.
  rewrite Hc. simpl negb. cbv iota.
  unfold contains, find in Hc.
  destruct (find_recurse x (_root self)) as [y|] eqn:Hf; [|discriminate].
  destruct (remove_descend_spec _ _ _ Hf) as (t' & E & pre & post & He & He').
  rewrite E. unfold isEmpty.
  rewrite inorder_elements in Hsz, Hin.
  assert (Hlen : _size self - 1 = Z.of_nat (length (elements t'))).
  { rewrite Hsz, He, He', !length_app. simpl length. lia. }
  destruct (Z.eqb_spec (_size self) 0) as [Hz|_].
  { rewrite He, length_app in Hsz. simpl length in Hsz. lia. }
  assert (Hroot : (if _size self - 1 =? 0 then Absent else t') = t').
  { destruct (Z.eqb_spec (_size self - 1) 0) as [Hz|]; [|reflexivity].
    symmetry. apply elements_nil, length_zero_iff_nil. lia. }
  cbv zeta. rewrite Hroot. eexists. split; [reflexivity|]. simpl.
  split; [reflexivity|]. rewrite !inorder_elements. simpl.
  split; [rewrite He, He'; symmetry; apply Permutation_middle|].
  split; simpl; [now rewrite inorder_elements|].
  apply ordered_sorted. rewrite He'.
  apply (sorted_remove_middle pre post x). rewrite <- He.
  now apply ordered_sorted.
Qed.

Lemma remove_absent (x : Z) (self : LinkedBST) :
  ~ In x (inorder self) -> remove x self = (Raise KeyError, self).
Proof.
  intros Hnin. unfold remove, contains, find.
  destruct (find_recurse x (_root self)) as [y|] eqn:Hf; [|reflexivity].
  apply find_recurse_Some in Hf as [_ Hf].
  now rewrite inorder_elements in Hnin.
Qed.

(** On a tree whose counter and order are intact, [remove(item)] raises
    [KeyError] exactly when [item] is not stored, and then leaves the tree
    and its size as they were; when [item] is stored it returns the item,
    takes one occurrence of it out and decrements the size by one. *)
Lemma remove_spec (self : LinkedBST) (item : Z) :
  consistent self ->
  ((remove item self).1 = Raise KeyError <-> ~ In item (inorder self))
  /\ (~ In item (inorder self) -> remove item self = (Raise KeyError, self))
  /\ (In item (inorder self) ->
      exists self', remove item self = (Return (Some item), self')
                    /\ _size self' = _size self - 1
                    /\ Permutation (inorder self) (item :: inorder self')
                    /\ consistent self').
Proof.
  intros Hc. split; [|split].
  - split.
    + intros Hr Hin.
      destruct (remove_present item self Hc Hin) as (s' & E & _).
      rewrite E in Hr. discriminate Hr.
    + intros Hnin. now rewrite remove_absent.
  - apply remove_absent.
  - now apply remove_present.
Qed.

(** The removal scenario: from the tree built by inserting 5, 3, 8, 1, 4,
    remove 3. *)
Lemma remove_spec_witness :
  let self := run [Add 5; Add 3; Add 8; Add 1; Add 4] empty_tree in
  consistent self
  /\ ((remove 3 self).1 = Raise KeyError <-> ~ In 3 (inorder self))
  /\ (~ In 3 (inorder self) -> remove 3 self = (Raise KeyError, self))
  /\ (In 3 (inorder self) ->
      exists self', remove 3 self = (Return (Some 3), self')
                    /\ _size self' = _size self - 1
                    /\ Permutation (inorder self) (3 :: inorder self')
                    /\ consistent self').
Proof.
  intros self.
  assert (Hc : consistent self).
  { split; [reflexivity|]. simpl. repeat split; repeat constructor; lia. }
  split; [exact Hc|]. exact (remove_spec self 3 Hc).
Defined.

(** ** Duplicates *)

Lemma contains_perm (s1 s2 : LinkedBST) (x : Z) :
  ordered (_root s1) -> ordered (_root s2) ->
  Permutation (inorder s1) (inorder s2) ->
  contains s1 x = contains s2 x.
Proof.
  intros H1 H2 Hp. apply eq_true_iff_eq.
  rewrite !contains_In by assumption.
  split; apply Permutation_in; [exact Hp|symmetry; exact Hp].
Qed.

(** C6, as stated, fails: on the tree holding 1, after [add(1)] and
    [remove(1)] the item 1 is still contained. *)
Lemma contains_after_add_remove_duplicate :
  let self := run [Add 1] empty_tree in
  reachable self
  /\ (add 1 self).1 = Return tt
  /\ (remove 1 (add 1 self).2).1 = Return (Some 1)
  /\ contains (remove 1 (add 1 self).2).2 1 = true.
Proof.
  split; [apply reachable_run; constructor|].
  vm_compute. intuition.
Qed.

(** ** Height *)

Lemma depth_ge (t : tree) : -1 <= depth t.
Proof. induction t as [|l IHl d r IHr]; simpl; lia. Qed.

Lemma depth_node (l r : tree) (d : Z) : 0 <= depth (BSTNode l d r).
Proof. pose proof (depth_ge l). simpl. lia. Qed.

(** The helper of [height] never fails, and computes the depth. *)
Lemma height1_depth (t : tree) : height1 t = Return (Z.max 0 (depth t)).
Proof.
  induction t as [|l IHl d r IHr]; [reflexivity|].
  destruct l as [|ll ld lr], r as [|rl rd rr].
  - reflexivity.
  - change (height1 (BSTNode Absent d (BSTNode rl rd rr)))
      with (hs ← (hr ← height1 (BSTNode rl rd rr); Return [hr]);
            m ← py_max hs; Return (1 + m)).
    rewrite IHr. simpl.
    pose proof (depth_node rl rr rd) as H. simpl in H. f_equal. lia.
  - change (height1 (BSTNode (BSTNode ll ld lr) d Absent))
      with (hs ← (hl ← height1 (BSTNode ll ld lr); Return [hl]);
            m ← py_max hs; Return (1 + m)).
    rewrite IHl. simpl.
    pose proof (depth_node ll lr ld) as H. simpl in H. f_equal. lia.
  - change (height1 (BSTNode (BSTNode ll ld lr) d (BSTNode rl rd rr)))
      with (hs ← (hl ← height1 (BSTNode ll ld lr);
                  hr ← height1 (BSTNode rl rd rr); Return [hl; hr]);
            m ← py_max hs; Return (1 + m)).
    rewrite IHl, IHr. simpl.
    pose proof (depth_node ll lr ld) as H1.
    pose proof (depth_node rl rr rd) as H2. simpl in H1, H2. f_equal. lia.
Qed.

(** The helper agrees with the method's text: 0 on a leaf, otherwise one
    more than the maximum over [children]. *)
Lemma height1_children (position : tree) :
  height1 position
  = if is_leaf position then Return 0
    else hs ← mapM height1 (children position);
         m ← py_max hs; Return (1 + m).
Proof.
  destruct position as [|l d r]; [reflexivity|].
  destruct l as [|ll ld lr], r as [|rl rd rr]; try reflexivity.
  change (height1 (BSTNode (BSTNode ll ld lr) d (BSTNode rl rd rr)))
    with (hs ← (hl ← height1 (BSTNode ll ld lr);
                hr ← height1 (BSTNode rl rd rr); Return [hl; hr]);
          m ← py_max hs; Return (1 + m)).
  cbn -[height1]. destruct (height1 (BSTNode ll ld lr)); [|reflexivity..].
  now destruct (height1 (BSTNode rl rd rr)).
Qed.

(** ** The store of rebalance *)

Lemma pop_in_range (its : list Z) (i : Z) :
  0 <= i < Z.of_nat (length its) ->
  exists x its', pop its i = Return (x, its')
                 /\ Z.of_nat (length its') = Z.of_nat (length its) - 1
                 /\ Permutation its (x :: its').
Proof.
  intros Hi. unfold pop.
  destruct (Z.ltb_spec i 0) as [?|_]; [lia|].
  destruct (Z.leb_spec 0 i) as [_|?]; [|lia].
  destruct (Z.ltb_spec i (Z.of_nat (length its))) as [_|?]; [|lia].
  simpl andb. cbv iota.
  destruct (lookup_lt_is_Some_2 its (Z.to_nat i)) as [x Hx]; [lia|].
  rewrite Hx. exists x, (delete (Z.to_nat i) its).
  split; [reflexivity|]. split.
  - rewrite length_delete by (now exists x).
    apply lookup_lt_Some in Hx. lia.
  - now apply delete_Permutation.
Qed.

Lemma pop_middle (its : list Z) :
  0 < Z.of_nat (length its) ->
  exists x its', pop its (floor_half (Z.of_nat (length its))) = Return (x, its')
                 /\ Z.of_nat (length its') = Z.of_nat (length its) - 1
                 /\ Permutation its (x :: its').
Proof.
  intros Hl. apply pop_in_range. unfold floor_half.
  split; [apply Z.div_pos; lia|apply Z.div_lt_upper_bound; lia].
Qed.

Ltac child_cases :=
  unfold child; repeat case_decide; try lia;
  repeat split; try reflexivity; try (f_equal; lia).

Section LevelOrder.

Variable c : nat.
Variable st : store.
Variable x : Z.
Hypothesis Hst : level_order c st.

Lemma level_order_alloc_lookup (j : nat) (cl : cell) :
  (st ++ [mkCell x None None]) !! j = Some cl ->
  (j < c)%nat /\ st !! j = Some cl \/ j = c /\ cl = mkCell x None None.
Proof using Hst.
  destruct Hst as [Hlen _]. rewrite lookup_app.
  destruct (st !! j) as [cl'|] eqn:E.
  - intros [= <-]. left. split; [|reflexivity].
    apply lookup_lt_Some in E. lia.
  - apply lookup_ge_None in E. intros H.
    apply list_lookup_singleton_Some in H as [H1 H2]. right. split; [lia|congruence].
Qed.

(** Linking the new node as left child of node [k] when the store holds
    [2k+1] nodes. *)
Lemma level_order_set_left (k : nat) :
  c = (2 * k + 1)%nat ->
  level_order (S c) (set_left (st ++ [mkCell x None None]) k (Some c)).
Proof using Hst.
  intros Hc. pose proof Hst as [Hlen Hlinks]. split.
  - unfold set_left. rewrite length_alter, length_app. simpl. lia.
  - intros j cl. unfold set_left. rewrite list_lookup_alter.
    destruct (decide (k = j)) as [<-|Hne].
    + destruct ((st ++ [mkCell x None None]) !! k) as [cl'|] eqn:E;
        [|discriminate].
      intros [= <-]. simpl.
      apply level_order_alloc_lookup in E as [[Hk E]|[Hk _]]; [|lia].
      destruct (Hlinks _ _ E) as [_ Hr]. rewrite Hr.
      child_cases.
    + intros E. apply level_order_alloc_lookup in E as [[Hj E]|[Hj ->]].
      * destruct (Hlinks _ _ E) as [Hl Hr]. rewrite Hl, Hr.
        child_cases.
      * simpl. child_cases.
Qed.

(** Linking the new node as right child of node [k] when the store holds
    [2k+2] nodes. *)
Lemma level_order_set_right (k : nat) :
  c = (2 * k + 2)%nat ->
  level_order (S c) (set_right (st ++ [mkCell x None None]) k (Some c)).
Proof using Hst.
  intros Hc. pose proof Hst as [Hlen Hlinks]. split.
  - unfold set_right. rewrite length_alter, length_app. simpl. lia.
  - intros j cl. unfold set_right. rewrite list_lookup_alter.
    destruct (decide (k = j)) as [<-|Hne].
    + destruct ((st ++ [mkCell x None None]) !! k) as [cl'|] eqn:E;
        [|discriminate].
      intros [= <-]. simpl.
      apply level_order_alloc_lookup in E as [[Hk E]|[Hk _]]; [|lia].
      destruct (Hlinks _ _ E) as [Hl _]. rewrite Hl.
      child_cases.
    + intros E. apply level_order_alloc_lookup in E as [[Hj E]|[Hj ->]].
      * destruct (Hlinks _ _ E) as [Hl Hr]. rewrite Hl, Hr.
        child_cases.
      * simpl. child_cases.
Qed.

End LevelOrder.

Lemma level_order_eq (c c' : nat) (st : store) :
  c = c' -> level_order c st -> level_order c' st.
Proof. now intros ->. Qed.

Lemma set_left_data (st : store) (k : nat) (v : option nat) :
  map node_data (set_left st k v) = map node_data st.
Proof.
  unfold set_left. revert k. induction st as [|cl st IH]; intros [|k];
    simpl; try reflexivity. f_equal. apply IH.
Qed.

Lemma set_right_data (st : store) (k : nat) (v : option nat) :
  map node_data (set_right st k v) = map node_data st.
Proof.
  unfold set_right. revert k. induction st as [|cl st IH]; intros [|k];
    simpl; try reflexivity. f_equal. apply IH.
Qed.

(** ** The loops of rebalance *)

#[local] Arguments Nat.mul : simpl never.

(** The items placed so far together with those still to place. *)
Lemma for_body_spec (k : nat) (f : frame) :
  loop_inv k f ->
  (lenght f = 0 /\ for_body k f = (Return Break, f))
  \/ (lenght f = 1
      /\ exists f', for_body k f = (Return Break, f')
                    /\ lenght f' = 0
                    /\ level_order (2 * k + 2) (heap f')
                    /\ Permutation (map node_data (heap f'))
                                   (map node_data (heap f) ++ items f))
  \/ (2 <= lenght f
      /\ exists f', for_body k f = (Return Continue, f')
                    /\ loop_inv (S k) f'
                    /\ lenght f' = lenght f - 2
                    /\ new_nodes f'
                       = new_nodes f ++ [(2 * k + 1)%nat; (2 * k + 2)%nat]
                    /\ Permutation (map node_data (heap f') ++ items f')
                                   (map node_data (heap f) ++ items f)).
Proof.
  destruct f as [h its L nn]. intros [Hh HL]. simpl in Hh, HL.
  unfold for_body. simpl.
  destruct (Z.eqb_spec L 0) as [HL0|HL0]; [left; split; [assumption|reflexivity]|].
  right.
  destruct (pop_middle its) as (x & its1 & E1 & Hlen1 & Hp1); [lia|].
  rewrite <- HL in E1, Hlen1. rewrite E1.
  pose proof Hh as [Hhl _]. rewrite Hhl.
  pose proof (level_order_set_left _ _ x Hh k eq_refl) as Hh1.
  destruct (Z.eqb_spec (L - 1) 0) as [HL1|HL1].
  - left. split; [lia|]. eexists. split; [reflexivity|]. simpl.
    split; [assumption|]. split.
    + eapply level_order_eq; [|exact Hh1]. lia.
    + rewrite set_left_data, map_app. simpl.
      assert (its1 = []) as -> by (apply length_zero_iff_nil; lia).
      rewrite Hp1. apply Permutation_app_head. reflexivity.
  - right. split; [lia|].
    destruct (pop_middle its1) as (y & its2 & E2 & Hlen2 & Hp2); [lia|].
    rewrite Hlen1 in E2. rewrite E2.
    pose proof Hh1 as [Hhl1 _]. rewrite Hhl1.
    pose proof (level_order_set_right _ _ y Hh1 k ltac:(lia)) as Hh2.
    eexists. split; [reflexivity|]. simpl. split; [split; simpl|].
    + eapply level_order_eq; [|exact Hh2]. lia.
    + lia.
    + split; [lia|]. split.
      * do 3 f_equal; lia.
      * rewrite set_right_data, map_app, set_left_data, map_app. simpl.
        rewrite Hp1, Hp2, <- !app_assoc. simpl.
        apply Permutation_app_head. reflexivity.
Qed.

Lemma for_nodes_unfold (fuel : nat) (nodes : nodes_ref) (i : nat) (f : frame) :
  for_nodes (S fuel) nodes i f
  = match deref nodes f !! i with
    | None => (Return tt, f)
    | Some node =>
        match for_body node f with
        | (Return Continue, f') => for_nodes fuel nodes (S i) f'
        | (Return Break, f') => (Return tt, f')
        | (Raise e, f') => (Raise e, f')
        | (OutOfFuel, f') => (OutOfFuel, f')
        end
    end.
Proof. reflexivity. Qed.

(** The pass over the list that [nodes] and [new_nodes] both name: the
    iterator never reaches the end of the growing list, and the pass
    stops by [break] when no item is left. *)
Lemma for_nodes_shared (fuel k : nat) (f : frame) :
  (1 <= k)%nat ->
  loop_inv k f ->
  new_nodes f = seq 1 (2 * k) ->
  (Z.to_nat (lenght f) < fuel)%nat ->
  exists f', for_nodes fuel NewNodes (k - 1) f = (Return tt, f')
             /\ lenght f' = 0
             /\ level_order (2 * k + 1 + Z.to_nat (lenght f)) (heap f')
             /\ Permutation (map node_data (heap f'))
                            (map node_data (heap f) ++ items f).
Proof.
  revert k f. induction fuel as [|fuel IH]; intros k f Hk Hinv Hnn Hfuel;
    [lia|].
  cbn [for_nodes deref]. rewrite Hnn, lookup_seq_lt by lia.
  replace (1 + (k - 1))%nat with k by lia.
  destruct (for_body_spec k f Hinv)
    as [[HL E]|[(HL & f' & E & HL' & Hh' & Hp')
               |(HL & f' & E & Hinv' & HL' & Hnn' & Hp')]];
    rewrite E.
  - exists f. split; [reflexivity|]. split; [assumption|].
    destruct Hinv as [Hh Hlen]. split.
    + eapply level_order_eq; [|exact Hh]. lia.
    + assert (items f = []) as -> by (apply length_zero_iff_nil; lia).
      now rewrite app_nil_r.
  - exists f'. split; [reflexivity|]. split; [assumption|]. split.
    + eapply level_order_eq; [|exact Hh']. lia.
    + exact Hp'.
  - destruct (IH (S k) f') as (f'' & E'' & HL'' & Hh'' & Hp'').
    + lia.
    + exact Hinv'.
    + rewrite Hnn', Hnn.
      replace (2 * S k)%nat with (2 * k + 2)%nat by lia.
      rewrite seq_app. f_equal. cbn [seq].
      f_equal; [lia|f_equal; lia].
    + lia.
    + replace (S (k - 1)) with (S k - 1)%nat by lia.
      exists f''. split; [exact E''|]. split; [assumption|]. split.
      * eapply level_order_eq; [|exact Hh'']. lia.
      * destruct Hinv' as [_ Hlen']. rewrite Hp''. exact Hp'.
Qed.

(** The whole loop: at most two passes, and then all items are placed. *)
Lemma while_lenght_spec (fuel : nat) (f : frame) :
  loop_inv 0 f ->
  new_nodes f = [] ->
  (Z.to_nat (lenght f) < fuel)%nat ->
  exists f', while_lenght fuel (OwnList [0%nat]) f = (Return tt, f')
             /\ level_order (1 + Z.to_nat (lenght f)) (heap f')
             /\ Permutation (map node_data (heap f'))
                            (map node_data (heap f) ++ items f).
Proof.
  intros Hinv Hnn Hfuel.
  destruct fuel as [|fuel]; [lia|]. cbn [while_lenght].
  destruct (for_body_spec 0 f Hinv)
    as [[HL E]|[(HL & f' & E & HL' & Hh' & Hp')
               |(HL & f' & E & Hinv' & HL' & Hnn' & Hp')]].
  - rewrite HL. simpl. exists f. split; [reflexivity|].
    destruct Hinv as [Hh Hlen]. split.
    + eapply level_order_eq; [|exact Hh]. lia.
    + assert (items f = []) as -> by (apply length_zero_iff_nil; lia).
      now rewrite app_nil_r.
  - rewrite HL. simpl. rewrite E.
    destruct fuel as [|fuel]; [lia|]. cbn [while_lenght]. rewrite HL'. simpl.
    exists f'. split; [reflexivity|]. split; [|exact Hp'].
    eapply level_order_eq; [|exact Hh']. lia.
  - destruct (Z.gtb_spec (lenght f) 0) as [_|?]; [|lia].
    destruct (Z.to_nat (lenght f)) as [|[|n]] eqn:En; [lia|lia|].
    rewrite for_nodes_unfold. cbn [deref].
    change ([0%nat] !! 0%nat) with (Some 0%nat). cbv iota. rewrite E.
    rewrite for_nodes_unfold. cbn [deref].
    change ([0%nat] !! 1%nat) with (@None nat). cbv iota.
    destruct fuel as [|fuel]; [lia|]. cbn [while_lenght].
    destruct (Z.gtb_spec (lenght f') 0) as [Hpos|Hz].
    + destruct (for_nodes_shared (S (Z.to_nat (lenght f'))) 1 f')
        as (f'' & E'' & HL'' & Hh'' & Hp''); [lia|exact Hinv'| |lia|].
      { rewrite Hnn', Hnn. reflexivity. }
      change (1 - 1)%nat with 0%nat in E''. rewrite E''.
      destruct fuel as [|fuel]; [lia|]. cbn [while_lenght].
      rewrite HL''. simpl. exists f''. split; [reflexivity|]. split.
      * eapply level_order_eq; [|exact Hh'']. lia.
      * rewrite Hp''. exact Hp'.
    + exists f'. split; [reflexivity|].
      destruct Hinv' as [Hh' Hlen']. split.
      * eapply level_order_eq; [|exact Hh']. lia.
      * assert (items f' = []) as E0 by (apply length_zero_iff_nil; lia).
        rewrite E0, app_nil_r in Hp'. exact Hp'.
Qed.

(** ** Reading the rebuilt tree *)

Lemma read_tree_None (fuel : nat) (st : store) :
  read_tree fuel st None = Some Absent.
Proof. now destruct fuel. Qed.

(** In a store linked level by level every node is read back, and the
    subtree of the node allocated [a]-th is as shallow as the number of
    nodes forces. *)
Lemma read_tree_level_order (c : nat) (st : store) :
  level_order c st ->
  forall (fuel a : nat),
    (a < c)%nat -> (c - a <= fuel)%nat ->
    exists t, read_tree fuel st (Some a) = Some t
              /\ t <> Absent
              /\ forall h, 0 <= h ->
                           Z.of_nat c < (Z.of_nat a + 1) * 2 ^ (h + 1) ->
                           depth t <= h.
Proof.
  intros [Hlen Hlinks]. induction fuel as [|fuel IH]; intros a Ha Hfuel; [lia|].
  assert (Hchild : forall a' : nat,
             (2 * a + 1 <= a')%nat ->
             exists t', read_tree fuel st (child c a') = Some t'
                        /\ forall h, 0 <= h ->
                             Z.of_nat c < (Z.of_nat a + 1) * 2 ^ (h + 1) ->
                             depth t' <= h - 1).
  { intros a' Ha'. unfold child. case_decide as Hlt.
    - destruct (IH a') as (t' & E & _ & Hd); [lia|lia|].
      exists t'. split; [exact E|]. intros h Hh Hc.
      destruct (Z.eq_dec h 0) as [->|Hne].
      + change (2 ^ (0 + 1)) with 2 in Hc. lia.
      + apply Hd; [lia|].
        replace (h + 1) with (Z.succ h) in Hc by lia.
        rewrite Z.pow_succ_r in Hc by lia.
        replace (h - 1 + 1) with h by lia.
        assert (0 < 2 ^ h) by (apply Z.pow_pos_nonneg; lia). nia.
    - exists Absent. split; [apply read_tree_None|].
      intros h Hh _. simpl. lia. }
  destruct (lookup_lt_is_Some_2 st a) as [cl Hcl]; [lia|].
  destruct (Hlinks _ _ Hcl) as [Hl Hr].
  destruct (Hchild (2 * a + 1)%nat) as (l & El & Hdl); [lia|].
  destruct (Hchild (2 * a + 2)%nat) as (r & Er & Hdr); [lia|].
  exists (BSTNode l (node_data cl) r). split; [|split; [discriminate|]].
  - cbn [read_tree]. rewrite Hcl. simpl. rewrite Hl, El. simpl.
    rewrite Hr, Er. reflexivity.
  - intros h Hh Hc. specialize (Hdl h Hh Hc). specialize (Hdr h Hh Hc).
    simpl. lia.
Qed.

(** ** The items rebalance starts from *)

Lemma mapM_get_data_app (ps1 ps2 : list tree) (d1 d2 : list Z) :
  mapM get_data ps1 = Return d1 ->
  mapM get_data ps2 = Return d2 ->
  mapM get_data (ps1 ++ ps2) = Return (d1 ++ d2).
Proof.
  revert d1. induction ps1 as [|p ps1 IH]; intros d1; simpl.
  - intros [= <-] H2. exact H2.
  - destruct (get_data p) as [x| |]; simpl; try discriminate.
    destruct (mapM get_data ps1) as [k| |] eqn:E; simpl; try discriminate.
    intros [= <-] H2. rewrite (IH k eq_refl H2). reflexivity.
Qed.

Lemma subtree_inorder_walk_data (t : tree) :
  t <> Absent ->
  exists ps, subtree_inorder_walk t = Return ps
             /\ mapM get_data ps = Return (elements t).
Proof.
  induction t as [|l IHl d r IHr]; [congruence|]. intros _.
  assert (Hl : exists ps,
             match l with
             | Absent => Return []
             | _ => subtree_inorder_walk l
             end = Return ps
             /\ mapM get_data ps = Return (elements l)).
  { destruct l; [exists []; split; reflexivity|]. now apply IHl. }
  assert (Hr : exists ps,
             match r with
             | Absent => Return []
             | _ => subtree_inorder_walk r
             end = Return ps
             /\ mapM get_data ps = Return (elements r)).
  { destruct r; [exists []; split; reflexivity|]. now apply IHr. }
  destruct Hl as (pl & El & Dl), Hr as (pr & Er & Dr).
  exists (pl ++ BSTNode l d r :: pr). split.
  - cbn [subtree_inorder_walk]. rewrite El. simpl. rewrite Er. reflexivity.
  - apply mapM_get_data_app; [exact Dl|]. simpl. rewrite Dr. reflexivity.
Qed.

Lemma insert_sorted_perm (x : Z) (l : list Z) :
  Permutation (insert_sorted x l) (x :: l).
Proof.
  induction l as [|y l IH]; simpl; [reflexivity|].
  destruct (x <=? y); [reflexivity|].
  rewrite IH. apply perm_swap.
Qed.

Lemma sorted_perm (l : list Z) : Permutation (sorted l) l.
Proof.
  induction l as [|x l IH]; simpl; [reflexivity|].
  rewrite insert_sorted_perm. now constructor.
Qed.

(** ** The rebuilt tree holds every node once *)

Lemma below_le (a j : nat) : below a j -> (a <= j)%nat.
Proof.
  intros [d [H _]].
  assert (1 <= 2 ^ d)%nat by (apply Nat.neq_0_lt_0, Nat.pow_nonzero; lia).
  nia.
Qed.

Lemma below_children (a j : nat) :
  below a j <-> j = a \/ below (2 * a + 1) j \/ below (2 * a + 2) j.
Proof.
  split.
  - intros [[|d] [H1 H2]].
    + left. simpl in H1, H2. lia.
    + right. rewrite Nat.pow_succ_r' in H1, H2.
      set (P := (2 ^ d)%nat) in *.
      destruct (le_lt_dec ((2 * a + 3) * P) (j + 1)) as [Hge|Hlt].
      * right. exists d. fold P. nia.
      * left. exists d. fold P. nia.
  - intros [->|[[d [H1 H2]]|[d [H1 H2]]]].
    + exists 0%nat. simpl. lia.
    + exists (S d). rewrite Nat.pow_succ_r'. nia.
    + exists (S d). rewrite Nat.pow_succ_r'. nia.
Qed.

Lemma pow2_split (d d' : nat) :
  (d < d')%nat -> exists q, (2 <= q)%nat /\ (2 ^ d' = 2 ^ d * q)%nat.
Proof.
  intros H. exists (2 ^ (d' - d))%nat. split.
  - replace (d' - d)%nat with (S (d' - d - 1)) by lia.
    rewrite Nat.pow_succ_r'.
    assert (1 <= 2 ^ (d' - d - 1))%nat
      by (apply Nat.neq_0_lt_0, Nat.pow_nonzero; lia).
    lia.
  - rewrite <- Nat.pow_add_r. f_equal. lia.
Qed.

Lemma below_disjoint (a j : nat) :
  below (2 * a + 1) j -> below (2 * a + 2) j -> False.
Proof.
  intros [d [H1 H2]] [d' [H1' H2']].
  assert (Hp : (1 <= 2 ^ d)%nat)
    by (apply Nat.neq_0_lt_0, Nat.pow_nonzero; lia).
  assert (Hp' : (1 <= 2 ^ d')%nat)
    by (apply Nat.neq_0_lt_0, Nat.pow_nonzero; lia).
  destruct (lt_eq_lt_dec d d') as [[Hlt|<-]|Hgt].
  - destruct (pow2_split d d' Hlt) as (q & Hq & E). rewrite E in H1', H2'.
    set (P := (2 ^ d)%nat) in *. nia.
  - nia.
  - destruct (pow2_split d' d Hgt) as (q & Hq & E). rewrite E in H1, H2.
    set (P := (2 ^ d')%nat) in *. nia.
Qed.

Lemma below_root (j : nat) : below 0 j.
Proof.
  exists (Nat.log2 (j + 1)).
  destruct (Nat.log2_spec (j + 1)) as [H1 H2]; [lia|].
  rewrite Nat.pow_succ_r' in H2. lia.
Qed.

Lemma subtree_addrs_below (fuel c a j : nat) :
  In j (subtree_addrs fuel c a) -> (j < c)%nat /\ below a j.
Proof.
  revert a. induction fuel as [|fuel IH]; intros a; simpl; [tauto|].
  case_decide as Ha; [|simpl; tauto].
  intros Hin. apply in_app_or in Hin as [Hin|[<-|Hin]].
  - apply IH in Hin as [Hj Hb]. split; [exact Hj|].
    apply below_children. tauto.
  - split; [exact Ha|]. apply below_children. tauto.
  - apply IH in Hin as [Hj Hb]. split; [exact Hj|].
    apply below_children. tauto.
Qed.

Lemma below_subtree_addrs (fuel c a j : nat) :
  (c - a <= fuel)%nat -> (j < c)%nat -> below a j ->
  In j (subtree_addrs fuel c a).
Proof.
  revert a. induction fuel as [|fuel IH]; intros a Hfuel Hj Hb.
  - apply below_le in Hb. lia.
  - pose proof (below_le _ _ Hb) as Hle. simpl.
    case_decide as Ha; [|lia].
    apply below_children in Hb as [->|[Hb|Hb]].
    + apply in_or_app. right. now left.
    + apply in_or_app. left. apply IH; [lia|exact Hj|exact Hb].
    + apply in_or_app. right. right. apply IH; [lia|exact Hj|exact Hb].
Qed.

Lemma subtree_addrs_NoDup (fuel c a : nat) : NoDup (subtree_addrs fuel c a).
Proof.
  revert a. induction fuel as [|fuel IH]; intros a; simpl; [constructor|].
  case_decide as Ha; [|constructor].
  apply NoDup_app. split; [apply IH|]. split.
  - intros j Hj Hj'. apply list_elem_of_In in Hj, Hj'.
    apply subtree_addrs_below in Hj as [_ Hb].
    destruct Hj' as [<-|Hj'].
    + apply below_le in Hb. lia.
    + apply subtree_addrs_below in Hj' as [_ Hb'].
      exact (below_disjoint _ _ Hb Hb').
  - constructor; [|apply IH].
    intros Hin. apply list_elem_of_In, subtree_addrs_below in Hin as [_ Hb].
    apply below_le in Hb. lia.
Qed.

(** Every address of the store is below the root, once. *)
Lemma subtree_addrs_root (c : nat) :
  Permutation (subtree_addrs c c 0) (seq 0 c).
Proof.
  apply NoDup_Permutation.
  - apply subtree_addrs_NoDup.
  - apply NoDup_seq.
  - intros j. rewrite !list_elem_of_In, List.in_seq. split.
    + intros Hin. apply subtree_addrs_below in Hin. lia.
    + intros Hj. apply below_subtree_addrs; [lia|lia|apply below_root].
Qed.

Lemma subtree_addrs_out (fuel c a : nat) :
  (c <= a)%nat -> subtree_addrs fuel c a = [].
Proof.
  intros Ha. destruct fuel as [|fuel]; simpl; [reflexivity|].
  case_decide; [lia|reflexivity].
Qed.

(** The items of the tree read back at a node are the data stored below
    that node. *)
Lemma read_tree_elements (c : nat) (st : store) :
  level_order c st ->
  forall (fuel a : nat) (t : tree),
    (a < c)%nat ->
    read_tree fuel st (Some a) = Some t ->
    elements t = map (data_at st) (subtree_addrs fuel c a).
Proof.
  intros [Hlen Hlinks]. induction fuel as [|fuel IH]; intros a t Ha;
    [discriminate|].
  assert (Hchild : forall (a' : nat) (t' : tree),
             read_tree fuel st (child c a') = Some t' ->
             elements t' = map (data_at st) (subtree_addrs fuel c a')).
  { intros a' t'. unfold child. case_decide as Hlt.
    - now apply IH.
    - rewrite read_tree_None. intros [= <-].
      rewrite subtree_addrs_out by lia. reflexivity. }
  cbn [read_tree subtree_addrs]. case_decide; [|lia].
  destruct (st !! a) as [cl|] eqn:Hcl; [|discriminate]. simpl.
  destruct (Hlinks _ _ Hcl) as [Hl Hr]. rewrite Hl, Hr.
  destruct (read_tree fuel st (child c (2 * a + 1))) as [l|] eqn:El;
    [|discriminate]. simpl.
  destruct (read_tree fuel st (child c (2 * a + 2))) as [r|] eqn:Er;
    [|discriminate]. simpl.
  intros [= <-]. simpl. rewrite map_app. simpl.
  rewrite (Hchild _ _ El), (Hchild _ _ Er).
  do 2 f_equal. unfold data_at. now rewrite Hcl.
Qed.

Lemma data_at_seq (st : store) :
  map (data_at st) (seq 0 (length st)) = map node_data st.
Proof.
  apply list_eq. intros i.
  change (map (data_at st) (seq 0 (length st)))
    with (data_at st <$> seq 0 (length st)).
  change (map node_data st) with (node_data <$> st).
  rewrite !list_lookup_fmap.
  destruct (st !! i) as [cl|] eqn:E.
  - rewrite lookup_seq_lt by (now apply lookup_lt_Some in E).
    simpl. unfold data_at. now rewrite E.
  - rewrite lookup_seq_ge by (now apply lookup_ge_None in E). reflexivity.
Qed.

(** Reading a store linked level by level from its first node yields
    every stored datum once. *)
Lemma read_tree_all (c : nat) (st : store) (t : tree) :
  level_order c st -> (0 < c)%nat ->
  read_tree c st (Some 0%nat) = Some t ->
  Permutation (elements t) (map node_data st).
Proof.
  intros Hst Hc Et.
  rewrite (read_tree_elements c st Hst c 0%nat t Hc Et).
  rewrite <- data_at_seq. destruct Hst as [-> _].
  apply Permutation_map, subtree_addrs_root.
Qed.

(** ** Rebalance on a non-empty tree *)

Lemma level_order_single (x : Z) : level_order 1 [mkCell x None None].
Proof.
  split; [reflexivity|]. intros [|j] cl; [|discriminate].
  intros [= <-]. split; reflexivity.
Qed.

(** On a non-empty tree [rebalance] runs to its end, zeroes the counter,
    and leaves a tree as shallow as its number of items allows. *)
Lemma rebalance_nonempty (self : LinkedBST) :
  _root self <> Absent ->
  exists t, rebalance self = (Return tt, mkBST t 0)
            /\ t <> Absent
            /\ Permutation (elements t) (inorder self)
            /\ forall h, 0 <= h ->
                         Z.of_nat (length (inorder self)) < 2 ^ (h + 1) ->
                         depth t <= h.
Proof.
  intros Hroot.
  destruct (subtree_inorder_walk_data _ Hroot) as (ps & Ew & Ed).
  unfold rebalance, _subtree_inorder.
  replace (match Absent with Absent => _root self | _ => Absent end)
    with (_root self) by reflexivity.
  rewrite Ew. cbn [mbind result_bind]. rewrite Ed.
  rewrite inorder_elements.
  pose proof (Permutation_length (sorted_perm (elements (_root self)))) as Hn.
  assert (Hpos : (0 < length (elements (_root self)))%nat).
  { destruct (_root self) as [|l d r]; [congruence|]. simpl.
    rewrite length_app. simpl. lia. }
  set (its := sorted (elements (_root self))) in *.
  destruct (pop_in_range its (floor_half (Z.of_nat (length its) - 1)))
    as (x & its1 & E1 & Hlen1 & Hp1).
  { unfold floor_half. split; [apply Z.div_pos; lia|].
    apply Z.div_lt_upper_bound; lia. }
  rewrite E1. cbn [new_node app length].
  set (f0 := mkFrame [mkCell x None None] its1 (Z.of_nat (length its) - 1) []).
  destruct (while_lenght_spec (S (length its1)) f0)
    as (f' & Ewh & Hh' & Hp').
  { split; [apply level_order_single|]. simpl. lia. }
  { reflexivity. }
  { simpl. lia. }
  rewrite Ewh.
  destruct (read_tree_level_order _ _ Hh' (S (length its1)) 0%nat)
    as (t & Et & Hne & Hd).
  { lia. }
  { simpl. lia. }
  rewrite Et. exists t. split; [reflexivity|]. split; [exact Hne|]. split.
  { rewrite (read_tree_all _ _ t Hh'); [|lia|].
    - rewrite Hp'. simpl. rewrite <- Hp1. apply sorted_perm.
    - simpl lenght.
      replace (1 + Z.to_nat (Z.of_nat (length its) - 1))%nat
        with (S (length its1)) by lia.
      exact Et. }
  intros h Hh Hlt. apply Hd; [exact Hh|].
  simpl lenght. replace (1 + Z.to_nat (Z.of_nat (length its) - 1))%nat
    with (length its) by lia.
  rewrite Hn. simpl. lia.
Qed.

(** Whenever [rebalance] returns, the tree holds the items it held
    before, each as often as before. *)
Lemma rebalance_preserves_items (self self' : LinkedBST) :
  rebalance self = (Return tt, self') ->
  Permutation (inorder self') (inorder self).
Proof.
  destruct (_root self) as [|l d r] eqn:Eroot.
  - unfold rebalance, _subtree_inorder. rewrite Eroot. discriminate.
  - destruct (rebalance_nonempty self) as (t & E & _ & Hp & _);
      [congruence|].
    rewrite E. intros [= <-]. now rewrite inorder_elements.
Qed.

Lemma rebalance_empty (self : LinkedBST) :
  _root self = Absent -> rebalance self = (Raise AttributeError, self).
Proof. intros E. unfold rebalance, _subtree_inorder. now rewrite E. Qed.

(** C4, amended: on every non-empty tree holding [n] items
    [rebalance()] returns, the tree still holds [n] items and [height()]
    is then at most [ceil(log2(n+1)) - 1]; the call raises on the empty
    tree only, and its loops never run out of steps. *)
Theorem rebalance_height_bound (self : LinkedBST) :
  let n := Z.of_nat (length (inorder self)) in
  match rebalance self with
  | (Return _, self') =>
      Z.of_nat (length (inorder self')) = n
      /\ exists h, height self' Absent = Return h
                   /\ h <= Z.log2_up (n + 1) - 1
  | (Raise _, _) => _root self = Absent /\ n = 0
  | (OutOfFuel, _) => False
  end.
Proof.
  intros n. destruct (_root self) as [|l d r] eqn:Eroot.
  - rewrite rebalance_empty by assumption. split; [reflexivity|].
    unfold n. now rewrite inorder_elements, Eroot.
  - destruct (rebalance_nonempty self) as (t & E & Hne & Hp & Hd);
      [congruence|].
    rewrite E. split.
    { unfold n. rewrite inorder_elements. simpl _root.
      now rewrite (Permutation_length Hp). }
    exists (Z.max 0 (depth t)). split.
    + unfold height. simpl _root. destruct t; apply height1_depth.
    + assert (Hn : 0 < n).
      { unfold n. rewrite inorder_elements, Eroot. simpl.
        rewrite length_app. simpl. lia. }
      rewrite Z.log2_up_eqn by lia.
      replace (Z.pred (n + 1)) with n by lia.
      pose proof (Z.log2_nonneg n) as Hl.
      pose proof (Z.log2_spec n Hn) as [_ Hs].
      specialize (Hd (Z.log2 n) Hl).
      replace (Z.log2 n + 1) with (Z.succ (Z.log2 n)) in Hd by lia.
      specialize (Hd Hs). lia.
Qed.

(** ** Reachable states *)

Lemma consistent_single (x : Z) : consistent (mkBST (BSTNode Absent x Absent) 1).
Proof. split; [reflexivity|]. simpl. repeat split; constructor. Qed.

(** A client reaches only trees whose counter and order are intact, or,
    after a [rebalance], non-empty trees whose counter is 0. *)
Lemma reachable_cases (self : LinkedBST) :
  reachable self ->
  consistent self \/ (_size self = 0 /\ _root self <> Absent).
Proof.
  induction 1 as [|o self Hr [Hc|[Hz Hne]]].
  - left. split; [reflexivity|exact I].
  - destruct o as [x|x|]; simpl.
    + destruct (add_spec x self Hc) as (s1 & E & _ & _ & Hc1).
      rewrite E. now left.
    + destruct (in_dec Z.eq_dec x (inorder self)) as [Hin|Hnin].
      * destruct (remove_present x self Hc Hin) as (s1 & E & _ & _ & Hc1).
        rewrite E. now left.
      * rewrite remove_absent by assumption. now left.
    + destruct (_root self) as [|l d r] eqn:Eroot.
      * rewrite rebalance_empty by assumption. now left.
      * destruct (rebalance_nonempty self) as (t & E & Hne & _);
          [congruence|].
        rewrite E. right. split; [reflexivity|exact Hne].
  - destruct o as [x|x|]; simpl.
    + unfold add, isEmpty. rewrite Hz. simpl. left. apply consistent_single.
    + right. unfold remove, isEmpty. rewrite Hz.
      destruct (contains self x); simpl; split; assumption.
    + destruct (rebalance_nonempty self Hne) as (t & E & Hne' & _).
      rewrite E. right. split; [reflexivity|exact Hne'].
Qed.

(** What follows a first [add(x)] that left the tree intact. *)
Lemma after_first_add (s1 : LinkedBST) (x : Z) :
  consistent s1 -> In x (inorder s1) ->
  exists s2 s3 s4 s',
    add x s1 = (Return tt, s2)
    /\ _size s2 = _size s1 + 1
    /\ remove x s2 = (Return (Some x), s3)
    /\ remove x s3 = (Return (Some x), s4)
    /\ _size s4 = _size s1 - 1
    /\ remove x s1 = (Return (Some x), s')
    /\ consistent s'
    /\ Permutation (inorder s1) (x :: inorder s').
Proof.
  intros Hc1 Hin1.
  destruct (add_spec x s1 Hc1) as (s2 & E2 & Hz2 & Hp2 & Hc2).
  assert (Hin2 : In x (inorder s2)).
  { eapply Permutation_in; [symmetry; exact Hp2|]. now left. }
  destruct (remove_present x s2 Hc2 Hin2) as (s3 & E3 & Hz3 & Hp3 & Hc3).
  assert (Hp3' : Permutation (inorder s3) (inorder s1)).
  { eapply Permutation_cons_inv. rewrite <- Hp3. exact Hp2. }
  assert (Hin3 : In x (inorder s3)).
  { eapply Permutation_in; [symmetry; exact Hp3'|exact Hin1]. }
  destruct (remove_present x s3 Hc3 Hin3) as (s4 & E4 & Hz4 & Hp4 & Hc4).
  destruct (remove_present x s1 Hc1 Hin1) as (s' & E' & Hz' & Hp' & Hc').
  exists s2, s3, s4, s'. repeat split; try assumption; try lia; apply Hc'.
Qed.

(** C6, amended: on every reachable tree, and on every tree whose counter
    and order are intact, [add(x)] twice increases the size by 2 and two
    calls of [remove(x)] then both return [x] and bring the size back;
    after [add(x)] and [remove(x)], [contains(x)] returns false provided
    it returned false before the [add]. *)
Theorem add_twice_remove_twice (self : LinkedBST) (x : Z) :
  reachable self \/ consistent self ->
  exists s1 s2 s3 s4 s',
    add x self = (Return tt, s1)
    /\ add x s1 = (Return tt, s2)
    /\ _size s2 = _size self + 2
    /\ remove x s2 = (Return (Some x), s3)
    /\ remove x s3 = (Return (Some x), s4)
    /\ _size s4 = _size self
    /\ remove x s1 = (Return (Some x), s')
    /\ (contains self x = false -> contains s' x = false).
Proof.
  intros Hr.
  assert (H1 : exists s1, add x self = (Return tt, s1)
                          /\ _size s1 = _size self + 1
                          /\ consistent s1
                          /\ In x (inorder s1)
                          /\ (contains self x = false ->
                              forall l, Permutation (inorder s1) (x :: l) ->
                                        ~ In x l)).
  { assert (Hcases : consistent self \/ (_size self = 0 /\ _root self <> Absent))
      by (destruct Hr as [Hr|Hc]; [now apply reachable_cases|now left]).
    destruct Hcases as [Hc|[Hz Hne]].
    - destruct (add_spec x self Hc) as (s1 & E1 & Hz1 & Hp1 & Hc1).
      exists s1. repeat split; try assumption; try apply Hc1.
      + eapply Permutation_in; [symmetry; exact Hp1|]. now left.
      + intros Hcf l Hl Hin.
        assert (Hp : Permutation (inorder self) l).
        { eapply Permutation_cons_inv. rewrite <- Hp1. exact Hl. }
        assert (Hct : contains self x = true).
        { apply contains_In; [apply Hc|].
          eapply Permutation_in; [symmetry; exact Hp|exact Hin]. }
        congruence.
    - exists (mkBST (BSTNode Absent x Absent) 1).
      unfold add, isEmpty. rewrite Hz. simpl.
      repeat split; try apply consistent_single.
      + now left.
      + intros _ l Hl Hin. apply Permutation_length in Hl.
        destruct l; [contradiction|discriminate]. }
  destruct H1 as (s1 & E1 & Hz1 & Hc1 & Hin1 & Huniq).
  destruct (after_first_add s1 x Hc1 Hin1)
    as (s2 & s3 & s4 & s' & E2 & Hz2 & E3 & E4 & Hz4 & E' & Hc' & Hp').
  exists s1, s2, s3, s4, s'. repeat split; try assumption; try lia.
  intros Hcf. destruct (contains s' x) eqn:Ec; [|reflexivity].
  apply contains_In in Ec; [|apply Hc'].
  exfalso. exact (Huniq Hcf _ Hp' Ec).
Qed.

(** The duplicate scenario on the tree holding 5 and 3, with [x = 4]. *)
Lemma add_twice_remove_twice_witness :
  let self := run [Add 5; Add 3] empty_tree in
  (reachable self \/ consistent self)
  /\ exists s1 s2 s3 s4 s',
    add 4 self = (Return tt, s1)
    /\ add 4 s1 = (Return tt, s2)
    /\ _size s2 = _size self + 2
    /\ remove 4 s2 = (Return (Some 4), s3)
    /\ remove 4 s3 = (Return (Some 4), s4)
    /\ _size s4 = _size self
    /\ remove 4 s1 = (Return (Some 4), s')
    /\ (contains self 4 = false -> contains s' 4 = false).
Proof.
  intros self.
  assert (Hr : reachable self \/ consistent self)
    by (left; repeat constructor).
  split; [exact Hr|]. exact (add_twice_remove_twice self 4 Hr).
Defined.

(** ** Search order under add and remove *)

(** C3, as stated, fails without any [rebalance]: after inserting 2, 1,
    1, 3 and removing 2, the root holds 1 and so does its left child. *)
Lemma remove_duplicate_breaks_strict_order :
  let self := run [Add 2; Add 1; Add 1; Add 3; Remove 2] empty_tree in
  reachable self
  /\ _root self = BSTNode (BSTNode Absent 1 Absent) 1 (BSTNode Absent 3 Absent)
  /\ ~ bst_order (_root self).
Proof.
  split; [apply reachable_run; constructor|].
  split; [vm_compute; reflexivity|].
  vm_compute. intros (_ & _ & H & _).
  apply Forall_inv in H. discriminate H.
Qed.

Lemma exec_consistent (o : op) (self : LinkedBST) :
  o <> Rebalance -> consistent self -> consistent (exec o self).
Proof.
  intros Ho Hc. destruct o as [x|x|]; simpl; [| |congruence].
  - destruct (add_spec x self Hc) as (s1 & E & _ & _ & Hc1). now rewrite E.
  - destruct (in_dec Z.eq_dec x (inorder self)) as [Hin|Hnin].
    + destruct (remove_present x self Hc Hin) as (s1 & E & _ & _ & Hc1).
      now rewrite E.
    + now rewrite remove_absent.
Qed.

Lemma run_consistent (ops : list op) (self : LinkedBST) :
  Forall (fun o => o <> Rebalance) ops ->
  consistent self -> consistent (run ops self).
Proof.
  revert self. induction ops as [|o ops IH]; intros self Hops Hc; simpl.
  - exact Hc.
  - apply Forall_cons in Hops as [Ho Hops].
    apply IH; [exact Hops|]. now apply exec_consistent.
Qed.

(** C3, amended: in every state reached from the empty tree by [add] and
    [remove] calls, every node has only smaller or equal items in its
    left subtree and only greater or equal items in its right subtree
    (and the size counter equals the number of items). *)
Theorem add_remove_keep_order (ops : list op) :
  Forall (fun o => o <> Rebalance) ops ->
  reachable (run ops empty_tree)
  /\ ordered (_root (run ops empty_tree))
  /\ _size (run ops empty_tree)
     = Z.of_nat (length (inorder (run ops empty_tree))).
Proof.
  intros Hops. split; [apply reachable_run; constructor|].
  destruct (run_consistent ops empty_tree Hops) as [Hsz Ho].
  - split; [reflexivity|exact I].
  - split; assumption.
Qed.

(** The scenario with a duplicate: insert 2, 1, 1, 3, then remove 2. *)
Lemma add_remove_keep_order_witness :
  let ops := [Add 2; Add 1; Add 1; Add 3; Remove 2] in
  Forall (fun o => o <> Rebalance) ops
  /\ reachable (run ops empty_tree)
  /\ ordered (_root (run ops empty_tree))
  /\ _size (run ops empty_tree)
     = Z.of_nat (length (inorder (run ops empty_tree))).
Proof.
  intros ops.
  assert (Hops : Forall (fun o => o <> Rebalance) ops)
    by (repeat constructor; discriminate).
  split; [exact Hops|]. exact (add_remove_keep_order ops Hops).
Defined.

(** * Further properties of the tree engine *)

(** ** Sorting by insertion *)

Lemma insert_sorted_sorted (x : Z) (l : list Z) :
  StronglySorted Z.le l -> StronglySorted Z.le (insert_sorted x l).
Proof.
  induction 1 as [|y l Hs IH Hy]; simpl.
  - repeat constructor.
  - destruct (Z.leb_spec x y) as [Hle|Hgt].
    + constructor; [now constructor|].
      constructor; [exact Hle|].
      eapply List.Forall_impl; [|exact Hy]. intros z Hz. simpl in Hz. lia.
    + constructor; [exact IH|].
      eapply Permutation_Forall; [symmetry; apply insert_sorted_perm|].
      constructor; [lia|exact Hy].
Qed.

Lemma sorted_sorted (l : list Z) : StronglySorted Z.le (sorted l).
Proof.
  induction l as [|x l IH]; simpl; [constructor|].
  now apply insert_sorted_sorted.
Qed.

Lemma sorted_unique (l l' : list Z) :
  StronglySorted Z.le l -> StronglySorted Z.le l' ->
  Permutation l l' -> l = l'.
Proof.
  intros Hl. revert l'. induction Hl as [|a l Hs IH Ha]; intros l' Hl' Hp.
  - now apply Permutation_nil in Hp.
  - destruct Hl' as [|b l' Hs' Hb].
    + symmetry in Hp. now apply Permutation_nil in Hp.
    + assert (a = b) as <-.
      { assert (Hin : In a (b :: l'))
          by (eapply Permutation_in; [exact Hp|now left]).
        assert (Hin' : In b (a :: l))
          by (eapply Permutation_in; [symmetry; exact Hp|now left]).
        rewrite List.Forall_forall in Ha, Hb.
        destruct Hin as [->|Hin]; [reflexivity|].
        destruct Hin' as [->|Hin']; [reflexivity|].
        specialize (Ha _ Hin'). specialize (Hb _ Hin). simpl in Ha, Hb. lia. }
      f_equal. apply IH; [exact Hs'|]. now apply Permutation_cons_inv in Hp.
Qed.

Lemma run_adds (l : list Z) (self : LinkedBST) :
  consistent self ->
  consistent (run (map Add l) self)
  /\ Permutation (inorder (run (map Add l) self)) (l ++ inorder self).
Proof.
  revert self. induction l as [|x l IH]; intros self Hc; simpl.
  - split; [exact Hc|reflexivity].
  - destruct (add_spec x self Hc) as (s1 & E & _ & Hp & Hc1).
    rewrite E. simpl. destruct (IH s1 Hc1) as [Hc' Hp'].
    split; [exact Hc'|]. rewrite Hp', Hp. symmetry. apply Permutation_middle.
Qed.

(** X1: adding the items of any list one by one to the empty tree gives a
    tree whose inorder traversal is that list sorted in ascending order. *)
Theorem inorder_of_adds_is_sorted (l : list Z) :
  inorder (run (map Add l) empty_tree) = sorted l.
Proof.
  destruct (run_adds l empty_tree) as [[_ Ho] Hp].
  { split; [reflexivity|exact I]. }
  apply sorted_unique.
  - rewrite inorder_elements. now apply ordered_sorted.
  - apply sorted_sorted.
  - rewrite Hp. simpl. rewrite app_nil_r. symmetry. apply sorted_perm.
Qed.

(** ** Search *)

(** X2: [find(item)] never returns anything but [item] itself, and only
    when it is stored; on a tree in search order it finds every stored
    item, so it returns [None] exactly for the items not stored. *)
Theorem find_finds_stored_items (self : LinkedBST) (item : Z) :
  ordered (_root self) ->
  (In item (inorder self) -> find self item = Some item)
  /\ (~ In item (inorder self) -> find self item = None)
  /\ (contains self item = true <-> In item (inorder self)).
Proof.
  intros Ho.
  assert (H1 : In item (inorder self) -> find self item = Some item).
  { rewrite inorder_elements. now apply find_recurse_In. }
  assert (H2 : ~ In item (inorder self) -> find self item = None).
  { intros Hnin. unfold find.
    destruct (find_recurse item (_root self)) as [y|] eqn:E; [|reflexivity].
    apply find_recurse_Some in E as [_ E].
    now rewrite inorder_elements in Hnin. }
  split; [exact H1|]. split; [exact H2|]. now apply contains_In.
Qed.

Lemma find_finds_stored_items_witness :
  let self := run [Add 5; Add 3; Add 8; Add 1; Add 4] empty_tree in
  ordered (_root self)
  /\ (In 4 (inorder self) -> find self 4 = Some 4)
  /\ (~ In 4 (inorder self) -> find self 4 = None)
  /\ (contains self 4 = true <-> In 4 (inorder self)).
Proof.
  intros self.
  assert (Ho : ordered (_root self)).
  { simpl. repeat split; repeat constructor; lia. }
  split; [exact Ho|]. exact (find_finds_stored_items self 4 Ho).
Defined.

(** ** Insertion *)

Lemma add_recurse_found (x : Z) (t : tree) :
  t <> Absent ->
  exists t', add_recurse x t = Return t' /\ find_recurse x t' = Some x.
Proof.
  induction t as [|l IHl d r IHr]; [congruence|]. intros _. simpl.
  destruct (Z.ltb_spec x d) as [Hlt|Hge].
  - assert (Hne : (x =? d) = false) by (apply Z.eqb_neq; lia).
    assert (Hlt' : (x <? d) = true) by (apply Z.ltb_lt; lia).
    destruct l as [|ll ld lr].
    + eexists. split; [reflexivity|]. simpl.
      now rewrite Hne, Hlt', Z.eqb_refl.
    + destruct IHl as (l' & E & Hf); [congruence|]. rewrite E.
      eexists. split; [reflexivity|].
      change (find_recurse x (BSTNode l' d r))
        with (if x =? d then Some d
              else if x <? d then find_recurse x l' else find_recurse x r).
      now rewrite Hne, Hlt'.
  - destruct (Z.eqb_spec x d) as [->|Hne].
    + destruct r as [|rl rd rr].
      * eexists. split; [reflexivity|]. simpl. now rewrite Z.eqb_refl.
      * destruct IHr as (r' & E & Hf); [congruence|]. rewrite E.
        eexists. split; [reflexivity|].
        change (find_recurse d (BSTNode l d r'))
          with (if d =? d then Some d
                else if d <? d then find_recurse d l else find_recurse d r').
        now rewrite Z.eqb_refl.
    + assert (Hne' : (x =? d) = false) by (apply Z.eqb_neq; lia).
      assert (Hge' : (x <? d) = false) by (apply Z.ltb_ge; lia).
      destruct r as [|rl rd rr].
      * eexists. split; [reflexivity|]. simpl.
        now rewrite Hne', Hge', Z.eqb_refl.
      * destruct IHr as (r' & E & Hf); [congruence|]. rewrite E.
        eexists. split; [reflexivity|].
        change (find_recurse x (BSTNode l d r'))
          with (if x =? d then Some d
                else if x <? d then find_recurse x l else find_recurse x r').
        now rewrite Hne', Hge'.
Qed.

(** The cases of [add] in this embedding, where the recursive helper
    has no depth limit. *)
Lemma add_cases (self : LinkedBST) (item : Z) :
  (_size self <> 0 /\ _root self = Absent
   /\ add item self = (Raise AttributeError, self))
  \/ (exists self', add item self = (Return tt, self')
                    /\ _size self' = _size self + 1
                    /\ find self' item = Some item
                    /\ contains self' item = true).
Proof.
  unfold add, isEmpty. destruct (Z.eqb_spec (_size self) 0) as [Hz|Hnz].
  - right. eexists. split; [reflexivity|]. split; [reflexivity|].
    unfold contains, find. simpl. now rewrite Z.eqb_refl.
  - destruct (_root self) as [|l d r] eqn:Eroot.
    + left. repeat split; assumption.
    + right. destruct (add_recurse_found item (BSTNode l d r)) as (t' & E & Hf);
        [congruence|].
      rewrite E. eexists. split; [reflexivity|]. split; [reflexivity|].
      unfold contains, find. simpl _root. now rewrite Hf.
Qed.

Lemma add_recurse_split (x : Z) (t : tree) :
  ordered t -> t <> Absent ->
  exists t' l1 l2,
    add_recurse x t = Return t'
    /\ elements t = l1 ++ l2
    /\ elements t' = l1 ++ x :: l2
    /\ Forall (fun y => y <= x) l1
    /\ Forall (fun y => x < y) l2.
Proof.
  induction t as [|l IHl d r IHr]; [congruence|].
  intros (Hl & Hr & Hld & Hrd) _. simpl.
  destruct (Z.ltb_spec x d) as [Hlt|Hge].
  - assert (Hbig : Forall (fun y => x < y) (d :: elements r)).
    { constructor; [exact Hlt|].
      eapply List.Forall_impl; [|exact Hrd]. intros y Hy. simpl in Hy. lia. }
    destruct l as [|ll ld lr].
    + exists (BSTNode (BSTNode Absent x Absent) d r), [], (d :: elements r).
      repeat split; auto.
    + destruct IHl as (l' & l1 & l2 & E & He & He' & H1 & H2);
        [exact Hl|congruence|].
      rewrite E. exists (BSTNode l' d r), l1, (l2 ++ d :: elements r).
      split; [reflexivity|].
      change (elements (BSTNode l' d r)) with (elements l' ++ d :: elements r).
      rewrite He, He', <- !app_assoc. repeat split; auto.
      apply Forall_app. split; assumption.
  - assert (Hsmall : Forall (fun y => y <= x) (elements l ++ [d])).
    { apply Forall_app. split; [|constructor; [lia|constructor]].
      eapply List.Forall_impl; [|exact Hld]. intros y Hy. simpl in Hy. lia. }
    destruct r as [|rl rd rr].
    + exists (BSTNode l d (BSTNode Absent x Absent)), (elements l ++ [d]), [].
      simpl. rewrite <- !app_assoc. simpl. repeat split; auto.
    + destruct IHr as (r' & l1 & l2 & E & He & He' & H1 & H2);
        [exact Hr|congruence|].
      rewrite E. exists (BSTNode l d r'), ((elements l ++ [d]) ++ l1), l2.
      split; [reflexivity|].
      change (elements (BSTNode l d r')) with (elements l ++ d :: elements r').
      rewrite He, He', <- !app_assoc. simpl. repeat split; auto.
      change (elements l ++ d :: l1) with (elements l ++ [d] ++ l1).
      rewrite app_assoc. apply Forall_app. split; assumption.
Qed.

(** X4: on a tree whose counter and order are intact, [add(item)] puts
    the item into the inorder sequence after every item less than or
    equal to it and before every greater item, and moves nothing else. *)
Theorem add_inorder_position (self : LinkedBST) (item : Z) :
  consistent self ->
  exists self' l1 l2,
    add item self = (Return tt, self')
    /\ inorder self = l1 ++ l2
    /\ inorder self' = l1 ++ item :: l2
    /\ Forall (fun y => y <= item) l1
    /\ Forall (fun y => item < y) l2.
Proof.
  intros [Hsz Ho]. unfold add, isEmpty.
  destruct (Z.eqb_spec (_size self) 0) as [Hz|Hnz].
  - assert (Hnil : inorder self = []) by (apply length_zero_iff_nil; lia).
    exists (mkBST (BSTNode Absent item Absent) (_size self + 1)), [], [].
    rewrite Hnil. repeat split; constructor.
  - assert (Hroot : _root self <> Absent).
    { intros E. rewrite inorder_elements, E in Hsz. simpl in Hsz. lia. }
    destruct (add_recurse_split item _ Ho Hroot)
      as (t' & l1 & l2 & E & He & He' & H1 & H2).
    rewrite E. exists (mkBST t' (_size self + 1)), l1, l2.
    rewrite !inorder_elements. simpl _root. repeat split; assumption.
Qed.

Lemma add_inorder_position_witness :
  let self := run [Add 5; Add 3; Add 8; Add 3] empty_tree in
  consistent self
  /\ exists self' l1 l2,
    add 3 self = (Return tt, self')
    /\ inorder self = l1 ++ l2
    /\ inorder self' = l1 ++ 3 :: l2
    /\ Forall (fun y => y <= 3) l1
    /\ Forall (fun y => 3 < y) l2.
Proof.
  intros self.
  assert (Hc : consistent self).
  { split; [reflexivity|]. simpl. repeat split; repeat constructor; lia. }
  split; [exact Hc|]. exact (add_inorder_position self 3 Hc).
Defined.

(** ** Removal on any tree *)

(** The cases of [remove] in this embedding, where the recursive
    [find] behind [item in self] has no depth limit. *)
Lemma remove_cases (self : LinkedBST) (item : Z) :
  (contains self item = false /\ remove item self = (Raise KeyError, self))
  \/ (contains self item = true /\ _size self = 0
      /\ remove item self = (Return None, self))
  \/ (contains self item = true /\ _size self <> 0
      /\ exists self' pre post,
          remove item self = (Return (Some item), self')
          /\ _size self' = _size self - 1
          /\ inorder self = pre ++ item :: post
          /\ inorder self' = if _size self =? 1 then [] else pre ++ post).
Proof.
  unfold remove, contains, find, isEmpty.
  destruct (find_recurse item (_root self)) as [y|] eqn:Hf;
    [|left; split; reflexivity].
  right. simpl negb. cbv iota.
  destruct (Z.eqb_spec (_size self) 0) as [Hz|Hnz];
    [left; repeat split; assumption|].
  right. split; [reflexivity|]. split; [assumption|].
  destruct (remove_descend_spec _ _ _ Hf) as (t' & E & pre & post & He & He').
  rewrite E. eexists. exists pre, post. split; [reflexivity|]. simpl.
  split; [reflexivity|]. rewrite !inorder_elements. simpl.
  split; [exact He|].
  replace (_size self - 1 =? 0) with (_size self =? 1)
    by (destruct (Z.eqb_spec (_size self) 1), (Z.eqb_spec (_size self - 1) 0);
        lia).
  destruct (_size self =? 1); [reflexivity|exact He'].
Qed.

(** X6: on a tree whose counter and order are intact, removing a stored
    item changes no other item's membership, and the item itself is still
    contained afterwards exactly when it was stored at least twice. *)
Theorem remove_then_contains (self : LinkedBST) (item : Z) :
  consistent self -> In item (inorder self) ->
  exists self',
    remove item self = (Return (Some item), self')
    /\ (forall y, y <> item -> contains self' y = contains self y)
    /\ (contains self' item = true
        <-> (2 <= count_occ Z.eq_dec (inorder self) item)%nat).
Proof.
  intros Hc Hin.
  destruct (remove_present item self Hc Hin) as (s' & E & _ & Hp & Hc').
  exists s'. split; [exact E|]. split.
  - intros y Hy. apply eq_true_iff_eq.
    rewrite !contains_In by (apply Hc || apply Hc'). split.
    + intros Hy'. eapply Permutation_in; [symmetry; exact Hp|]. now right.
    + intros Hy'. eapply Permutation_in in Hy'; [|exact Hp].
      destruct Hy' as [->|Hy']; [congruence|exact Hy'].
  - rewrite contains_In by apply Hc'.
    rewrite (proj1 (Permutation_count_occ Z.eq_dec _ _) Hp item).
    rewrite count_occ_cons_eq by reflexivity.
    rewrite (count_occ_In Z.eq_dec). lia.
Qed.

Lemma remove_then_contains_witness :
  let self := run [Add 5; Add 3; Add 8; Add 3] empty_tree in
  consistent self /\ In 3 (inorder self)
  /\ exists self',
    remove 3 self = (Return (Some 3), self')
    /\ (forall y, y <> 3 -> contains self' y = contains self y)
    /\ (contains self' 3 = true
        <-> (2 <= count_occ Z.eq_dec (inorder self) 3%Z)%nat).
Proof.
  intros self.
  assert (Hc : consistent self).
  { split; [reflexivity|]. simpl. repeat split; repeat constructor; lia. }
  assert (Hin : In 3 (inorder self)) by (simpl; tauto).
  split; [exact Hc|]. split; [exact Hin|].
  exact (remove_then_contains self 3 Hc Hin).
Defined.

(** ** Replace *)

Lemma replace_probe_spec (item new_item : Z) (t : tree) :
  match find_recurse item t with
  | None => replace_probe item new_item t = None
  | Some _ =>
      exists t' pre post,
        replace_probe item new_item t = Some (item, t')
        /\ elements t = pre ++ item :: post
        /\ elements t' = pre ++ new_item :: post
        /\ depth t' = depth t
  end.
Proof.
  induction t as [|l IHl d r IHr]; simpl; [reflexivity|].
  rewrite (Z.eqb_sym item d), Z.gtb_ltb.
  destruct (Z.eqb_spec d item) as [->|Hne].
  - exists (BSTNode l new_item r), (elements l), (elements r).
    repeat split; reflexivity.
  - destruct (item <? d).
    + destruct (find_recurse item l).
      * destruct IHl as (l' & pre & post & E & He & He' & Hd). rewrite E.
        exists (BSTNode l' d r), pre, (post ++ d :: elements r). simpl.
        rewrite He, He', Hd, <- !app_assoc. repeat split; reflexivity.
      * now rewrite IHl.
    + destruct (find_recurse item r).
      * destruct IHr as (r' & pre & post & E & He & He' & Hd). rewrite E.
        exists (BSTNode l d r'), (elements l ++ d :: pre), post. simpl.
        rewrite He, He', Hd, <- !app_assoc. repeat split; reflexivity.
      * now rewrite IHr.
Qed.

(** X7: on any tree, [replace(item, new_item)] returns [None] and changes
    nothing when [item] is not found; when it is found it returns [item],
    overwrites that occurrence in place in the inorder sequence, and
    leaves the size and the height as they were. *)
Theorem replace_outcomes (self : LinkedBST) (item new_item : Z) :
  (contains self item = false
   /\ replace item new_item self = (Return None, self))
  \/ (contains self item = true
      /\ exists self' pre post,
          replace item new_item self = (Return (Some item), self')
          /\ _size self' = _size self
          /\ inorder self = pre ++ item :: post
          /\ inorder self' = pre ++ new_item :: post
          /\ height self' Absent = height self Absent).
Proof.
  unfold replace, contains, find.
  pose proof (replace_probe_spec item new_item (_root self)) as H.
  destruct (find_recurse item (_root self)) as [y|].
  - right. split; [reflexivity|].
    destruct H as (t' & pre & post & E & He & He' & Hd). rewrite E.
    eexists. exists pre, post. split; [reflexivity|]. simpl.
    rewrite !inorder_elements. simpl.
    repeat split; try assumption.
    now rewrite !height1_depth, Hd.
  - left. rewrite H. split; reflexivity.
Qed.

(** ** Neighbour queries *)

Lemma successor_step_min (item : Z) (acc : option Z) (x : Z) :
  successor_step item acc x
  = if x >? item
    then Some (match acc with None => x | Some s => Z.min x s end)
    else acc.
Proof.
  unfold successor_step. destruct (x >? item); [|reflexivity].
  destruct acc as [s|].
  - destruct (Z.ltb_spec x s); f_equal; lia.
  - now rewrite Z.ltb_irrefl.
Qed.

Lemma successor_fold (item : Z) (l : list Z) (acc : option Z) :
  (forall a, acc = Some a -> item < a) ->
  match fold_left (successor_step item) l acc with
  | None => acc = None /\ forall z, In z l -> z <= item
  | Some y =>
      item < y
      /\ (acc = Some y \/ In y l)
      /\ (forall a, acc = Some a -> y <= a)
      /\ forall z, In z l -> item < z -> y <= z
  end.
Proof.
  revert acc. induction l as [|x l IH]; intros acc Hacc; simpl.
  - destruct acc as [a|].
    + split; [now apply Hacc|]. split; [now left|].
      split; [intros ? [= <-]; lia|tauto].
    + split; [reflexivity|tauto].
  - rewrite successor_step_min.
    destruct (Z.gtb_spec x item) as [Hgt|Hle].
    + set (m := match acc with None => x | Some s => Z.min x s end).
      assert (Hm : item < m).
      { unfold m. destruct acc as [s|]; [|lia].
        specialize (Hacc s eq_refl). lia. }
      specialize (IH (Some m)).
      destruct (fold_left (successor_step item) l (Some m)) as [y|].
      * destruct IH as (Hy & Hsrc & Hmin & Hall); [intros ? [= <-]; exact Hm|].
        specialize (Hmin m eq_refl).
        split; [exact Hy|]. split; [|split].
        -- destruct Hsrc as [[= <-]|Hin]; [|now right; right].
           unfold m. destruct acc as [s|]; [|now right; left].
           destruct (Z.min_spec x s) as [[_ ->]|[_ ->]];
             [now right; left|now left].
        -- intros a ->. unfold m in Hmin. lia.
        -- intros z [<-|Hz] Hz'; [|now apply Hall].
           unfold m in Hmin. destruct acc; lia.
      * destruct IH as [IH _]; [intros ? [= <-]; exact Hm|discriminate].
    + specialize (IH acc Hacc).
      destruct (fold_left (successor_step item) l acc) as [y|].
      * destruct IH as (Hy & Hsrc & Hmin & Hall).
        split; [exact Hy|]. split; [tauto|]. split; [exact Hmin|].
        intros z [<-|Hz] Hz'; [lia|now apply Hall].
      * destruct IH as [-> Hall]. split; [reflexivity|].
        intros z [<-|Hz]; [lia|now apply Hall].
Qed.

(** X8: on any tree, [successor(item)] returns the least stored item
    greater than [item], and [None] exactly when no stored item is
    greater. *)
Theorem successor_least_greater (self : LinkedBST) (item : Z) :
  match successor self item with
  | Some y =>
      In y (inorder self) /\ item < y
      /\ forall z, In z (inorder self) -> item < z -> y <= z
  | None => forall z, In z (inorder self) -> z <= item
  end.
Proof.
  unfold successor.
  pose proof (successor_fold item (inorder self) None) as H.
  destruct (fold_left (successor_step item) (inorder self) None) as [y|].
  - destruct H as (Hy & [Hsrc|Hin] & _ & Hall); [discriminate| |];
      try discriminate.
    repeat split; assumption.
  - destruct H as [_ H]; [discriminate|exact H].
Qed.

Lemma predecessor_step_max (item : Z) (acc : option Z) (x : Z) :
  predecessor_step item acc x
  = if x <? item
    then Some (match acc with None => x | Some p => Z.max x p end)
    else acc.
Proof.
  unfold predecessor_step. destruct (x <? item); [|reflexivity].
  destruct acc as [p|].
  - destruct (Z.gtb_spec x p); f_equal; lia.
  - rewrite Z.gtb_ltb. now rewrite Z.ltb_irrefl.
Qed.

Lemma predecessor_fold (item : Z) (l : list Z) (acc : option Z) :
  (forall a, acc = Some a -> a < item) ->
  match fold_left (predecessor_step item) l acc with
  | None => acc = None /\ forall z, In z l -> item <= z
  | Some y =>
      y < item
      /\ (acc = Some y \/ In y l)
      /\ (forall a, acc = Some a -> a <= y)
      /\ forall z, In z l -> z < item -> z <= y
  end.
Proof.
  revert acc. induction l as [|x l IH]; intros acc Hacc; simpl.
  - destruct acc as [a|].
    + split; [now apply Hacc|]. split; [now left|].
      split; [intros ? [= <-]; lia|tauto].
    + split; [reflexivity|tauto].
  - rewrite predecessor_step_max.
    destruct (Z.ltb_spec x item) as [Hlt|Hge].
    + set (m := match acc with None => x | Some p => Z.max x p end).
      assert (Hm : m < item).
      { unfold m. destruct acc as [p|]; [|lia].
        specialize (Hacc p eq_refl). lia. }
      specialize (IH (Some m)).
      destruct (fold_left (predecessor_step item) l (Some m)) as [y|].
      * destruct IH as (Hy & Hsrc & Hmax & Hall); [intros ? [= <-]; exact Hm|].
        specialize (Hmax m eq_refl).
        split; [exact Hy|]. split; [|split].
        -- destruct Hsrc as [[= <-]|Hin]; [|now right; right].
           unfold m. destruct acc as [p|]; [|now right; left].
           destruct (Z.max_spec x p) as [[_ ->]|[_ ->]];
             [now left|now right; left].
        -- intros a ->. unfold m in Hmax. lia.
        -- intros z [<-|Hz] Hz'; [|now apply Hall].
           unfold m in Hmax. destruct acc; lia.
      * destruct IH as [IH _]; [intros ? [= <-]; exact Hm|discriminate].
    + specialize (IH acc Hacc).
      destruct (fold_left (predecessor_step item) l acc) as [y|].
      * destruct IH as (Hy & Hsrc & Hmax & Hall).
        split; [exact Hy|]. split; [tauto|]. split; [exact Hmax|].
        intros z [<-|Hz] Hz'; [lia|now apply Hall].
      * destruct IH as [-> Hall]. split; [reflexivity|].
        intros z [<-|Hz]; [lia|now apply Hall].
Qed.

(** X9: on any tree, [predecessor(item)] returns the greatest stored item
    less than [item], and [None] exactly when no stored item is less. *)
Theorem predecessor_greatest_less (self : LinkedBST) (item : Z) :
  match predecessor self item with
  | Some y =>
      In y (inorder self) /\ y < item
      /\ forall z, In z (inorder self) -> z < item -> z <= y
  | None => forall z, In z (inorder self) -> item <= z
  end.
Proof.
  unfold predecessor.
  pose proof (predecessor_fold item (inorder self) None) as H.
  destruct (fold_left (predecessor_step item) (inorder self) None) as [y|].
  - destruct H as (Hy & [Hsrc|Hin] & _ & Hall); [discriminate| |];
      try discriminate.
    repeat split; assumption.
  - destruct H as [_ H]; [discriminate|exact H].
Qed.

(** ** Iteration *)

Lemma preorder_elements (t : tree) : Permutation (preorder t) (elements t).
Proof.
  induction t as [|l IHl d r IHr]; simpl; [reflexivity|].
  rewrite IHl, IHr. apply Permutation_middle.
Qed.

(** The stack loop yields the nodes of the stacked subtrees, the top one
    first, each subtree in preorder. *)
Lemma iter_loop_preorder (fuel : nat) (stack : list tree) (yielded : list Z) :
  Forall (fun node => node <> Absent) stack ->
  (length (flat_map preorder stack) < fuel)%nat ->
  iter_loop fuel stack yielded = Return (yielded ++ flat_map preorder stack).
Proof.
  revert stack yielded.
  induction fuel as [|fuel IH]; intros stack yielded Hst Hfuel; [lia|].
  destruct stack as [|node stack]; simpl.
  - now rewrite app_nil_r.
  - apply Forall_cons in Hst as [Hnode Hst].
    destruct node as [|l d r]; [congruence|].
    simpl in Hfuel. rewrite !length_app in Hfuel.
    set (stack1 := match r with Absent => stack | _ => r :: stack end).
    set (stack2 := match l with Absent => stack1 | _ => l :: stack1 end).
    assert (E : flat_map preorder stack2
                = preorder l ++ preorder r ++ flat_map preorder stack).
    { unfold stack2, stack1. destruct l, r; reflexivity. }
    rewrite IH.
    + rewrite E. simpl. now rewrite <- !app_assoc.
    + unfold stack2, stack1.
      destruct l, r; repeat (constructor; [discriminate|]); exact Hst.
    + rewrite E, !length_app. lia.
Qed.

(** X10: iterating over the collection yields nothing when the size
    counter is 0, whatever the links hold; otherwise it yields the items
    in preorder (every node before its left subtree, the left subtree
    before the right one), which are the items of [inorder()] in another
    order; it fails only on an absent root with a counter that is not 0. *)
Theorem iter_yields_preorder (self : LinkedBST) :
  __iter__ self
  = (if _size self =? 0 then Return []
     else match _root self with
          | Absent => Raise AttributeError
          | BSTNode _ _ _ => Return (preorder (_root self))
          end)
  /\ Permutation (preorder (_root self)) (inorder self).
Proof.
  split; [|rewrite inorder_elements; apply preorder_elements].
  unfold __iter__, isEmpty. destruct (_size self =? 0); [reflexivity|].
  simpl negb. cbv iota. destruct (_root self) as [|l d r] eqn:Eroot.
  - reflexivity.
  - rewrite iter_loop_preorder.
    + simpl. now rewrite app_nil_r.
    + constructor; [discriminate|constructor].
    + rewrite inorder_elements, Eroot.
      rewrite <- (Permutation_length (preorder_elements (BSTNode l d r))).
      simpl. rewrite app_nil_r. lia.
Qed.

(** ** Height against the number of items *)

Lemma count_le_pow (t : tree) :
  Z.of_nat (length (elements t)) <= 2 ^ (depth t + 1) - 1.
Proof.
  induction t as [|l IHl d r IHr]; simpl; [reflexivity|].
  rewrite length_app. simpl length.
  pose proof (depth_ge l) as Hl. pose proof (depth_ge r) as Hr.
  set (m := Z.max (depth l) (depth r)) in *.
  assert (H1 : 2 ^ (depth l + 1) <= 2 ^ (m + 1))
    by (apply Z.pow_le_mono_r; lia).
  assert (H2 : 2 ^ (depth r + 1) <= 2 ^ (m + 1))
    by (apply Z.pow_le_mono_r; lia).
  replace (1 + m + 1) with (Z.succ (m + 1)) by lia.
  rewrite Z.pow_succ_r by lia. lia.
Qed.

Lemma depth_le_count (t : tree) :
  depth t <= Z.of_nat (length (elements t)) - 1.
Proof.
  induction t as [|l IHl d r IHr]; simpl; [lia|].
  rewrite length_app. simpl length. lia.
Qed.

(** The value of [height()] in this embedding, where the recursive
    helper has no depth limit. *)
Lemma height_value (self : LinkedBST) :
  let n := Z.of_nat (length (inorder self)) in
  exists h, height self Absent = Return h
            /\ 0 <= h <= Z.max 0 (n - 1)
            /\ n < 2 ^ (h + 1).
Proof.
  intros n. unfold n. rewrite inorder_elements.
  exists (Z.max 0 (depth (_root self))).
  split; [apply height1_depth|].
  pose proof (depth_le_count (_root self)) as H1.
  pose proof (count_le_pow (_root self)) as H2.
  pose proof (depth_ge (_root self)) as H3.
  split; [lia|].
  assert (H4 : 2 ^ (depth (_root self) + 1)
               <= 2 ^ (Z.max 0 (depth (_root self)) + 1))
    by (apply Z.pow_le_mono_r; lia).
  lia.
Qed.

(** ** More on rebalance *)

(** X12: [rebalance()] never changes which items the tree holds, nor how
    often: the inorder sequence after the call is a rearrangement of the
    one before, whether the call returns or raises. *)
Theorem rebalance_keeps_items (self : LinkedBST) :
  Permutation (inorder (rebalance self).2) (inorder self).
Proof.
  destruct (_root self) as [|l d r] eqn:Eroot.
  - now rewrite rebalance_empty.
  - destruct (rebalance_nonempty self) as (t & E & _ & Hp & _); [congruence|].
    rewrite E. simpl. now rewrite inorder_elements.
Qed.

(** X13: on a non-empty tree holding [n] items, [rebalance()] leaves a
    tree of height exactly [floor(log2 n)], and no tree holding as many
    items is lower. *)
Theorem rebalance_height_minimal (self : LinkedBST) :
  _root self <> Absent ->
  let n := Z.of_nat (length (inorder self)) in
  exists self',
    rebalance self = (Return tt, self')
    /\ height self' Absent = Return (Z.log2 n)
    /\ forall other : LinkedBST,
        length (inorder other) = length (inorder self) ->
        exists h, height other Absent = Return h /\ Z.log2 n <= h.
Proof.
  intros Hroot n.
  destruct (rebalance_nonempty self Hroot) as (t & E & Hne & Hp & Hd).
  assert (Hn : 0 < n).
  { unfold n. rewrite inorder_elements.
    destruct (_root self); [congruence|]. simpl. rewrite length_app.
    simpl. lia. }
  assert (Hlow : forall t' : tree,
             Z.of_nat (length (elements t')) = n -> Z.log2 n <= depth t').
  { intros t' Ht'. pose proof (count_le_pow t') as Hc.
    pose proof (depth_ge t') as Hg.
    assert (Hlt : Z.log2 n < depth t' + 1)
      by (apply Z.log2_lt_pow2; lia).
    lia. }
  exists (mkBST t 0). split; [exact E|]. split.
  - unfold height. simpl _root.
    replace (match Absent with Absent => height1 t | _ => height1 Absent end)
      with (height1 t) by reflexivity.
    rewrite height1_depth. f_equal.
    assert (Hup : depth t <= Z.log2 n).
    { apply Hd; [apply Z.log2_nonneg|].
      replace (Z.log2 n + 1) with (Z.succ (Z.log2 n)) by lia.
      now apply Z.log2_spec. }
    assert (Hlo : Z.log2 n <= depth t).
    { apply Hlow. unfold n. rewrite inorder_elements.
      now rewrite (Permutation_length Hp), inorder_elements. }
    pose proof (Z.log2_nonneg n). lia.
  - intros other Hlen. exists (Z.max 0 (depth (_root other))).
    split; [apply height1_depth|].
    assert (Z.log2 n <= depth (_root other)); [|lia].
    apply Hlow. unfold n. now rewrite <- Hlen, inorder_elements.
Qed.

Lemma rebalance_height_minimal_witness :
  let self := run (map Add [1; 2; 3; 4; 5; 6; 7]) empty_tree in
  _root self <> Absent
  /\ exists self',
    rebalance self = (Return tt, self')
    /\ height self' Absent = Return 2
    /\ forall other : LinkedBST,
        length (inorder other) = length (inorder self) ->
        exists h, height other Absent = Return h /\ 2 <= h.
Proof.
  intros self.
  assert (Hroot : _root self <> Absent) by (simpl; discriminate).
  split; [exact Hroot|]. exact (rebalance_height_minimal self Hroot).
Defined.

(** X14: after [rebalance()] on a non-empty tree the size counter is 0
    although the items are still linked, so the collection behaves as if
    empty: iteration yields nothing, [remove] of an item that is found
    returns [None] and removes nothing, and the next [add(x)] replaces
    the whole tree by the single item [x]. *)
Theorem after_rebalance_looks_empty (self : LinkedBST) :
  _root self <> Absent ->
  exists self',
    rebalance self = (Return tt, self')
    /\ _size self' = 0
    /\ Permutation (inorder self') (inorder self)
    /\ __iter__ self' = Return []
    /\ (forall x, contains self' x = true ->
                  remove x self' = (Return None, self'))
    /\ (forall x, add x self'
                  = (Return tt, mkBST (BSTNode Absent x Absent) 1)).
Proof.
  intros Hroot.
  destruct (rebalance_nonempty self Hroot) as (t & E & Hne & Hp & _).
  exists (mkBST t 0). split; [exact E|]. split; [reflexivity|].
  split; [now rewrite inorder_elements|]. split; [reflexivity|]. split.
  - intros x Hx. unfold remove. rewrite Hx. reflexivity.
  - intros x. reflexivity.
Qed.

Lemma after_rebalance_looks_empty_witness :
  let self := run [Add 5; Add 3; Add 8] empty_tree in
  _root self <> Absent
  /\ exists self',
    rebalance self = (Return tt, self')
    /\ _size self' = 0
    /\ Permutation (inorder self') (inorder self)
    /\ __iter__ self' = Return []
    /\ (forall x, contains self' x = true ->
                  remove x self' = (Return None, self'))
    /\ (forall x, add x self'
                  = (Return tt, mkBST (BSTNode Absent x Absent) 1)).
Proof.
  intros self.
  assert (Hroot : _root self <> Absent) by (simpl; discriminate).
  split; [exact Hroot|]. exact (after_rebalance_looks_empty self Hroot).
Defined.

Lemma rebalance_same_items (s1 s2 : LinkedBST) :
  _root s1 <> Absent -> _root s2 <> Absent ->
  Permutation (inorder s1) (inorder s2) ->
  rebalance s1 = rebalance s2.
Proof.
  intros H1 H2 Hp. rewrite !inorder_elements in Hp.
  destruct (subtree_inorder_walk_data _ H1) as (ps1 & Ew1 & Ed1).
  destruct (subtree_inorder_walk_data _ H2) as (ps2 & Ew2 & Ed2).
  assert (Es : sorted (elements (_root s1)) = sorted (elements (_root s2))).
  { apply sorted_unique; try apply sorted_sorted.
    now rewrite !sorted_perm. }
  unfold rebalance, _subtree_inorder, clear.
  replace (match Absent with Absent => _root s1 | _ => Absent end)
    with (_root s1) by reflexivity.
  replace (match Absent with Absent => _root s2 | _ => Absent end)
    with (_root s2) by reflexivity.
  rewrite Ew1, Ew2. cbn [mbind result_bind]. rewrite Ed1, Ed2, Es.
  reflexivity.
Qed.

(** X15: what [rebalance()] builds depends only on the items: two
    non-empty trees holding the same items, each as often, are left in
    the very same state. *)
Theorem rebalance_depends_on_items_only (s1 s2 : LinkedBST) :
  _root s1 <> Absent -> _root s2 <> Absent ->
  Permutation (inorder s1) (inorder s2) ->
  rebalance s1 = rebalance s2.
Proof. apply rebalance_same_items. Qed.

Lemma rebalance_depends_on_items_only_witness :
  let s1 := run [Add 1; Add 2; Add 3] empty_tree in
  let s2 := run [Add 2; Add 3; Add 1] empty_tree in
  _root s1 <> Absent /\ _root s2 <> Absent
  /\ Permutation (inorder s1) (inorder s2)
  /\ rebalance s1 = rebalance s2.
Proof.
  intros s1 s2.
  assert (H1 : _root s1 <> Absent) by (simpl; discriminate).
  assert (H2 : _root s2 <> Absent) by (simpl; discriminate).
  assert (Hp : Permutation (inorder s1) (inorder s2)) by reflexivity.
  split; [exact H1|]. split; [exact H2|]. split; [exact Hp|].
  exact (rebalance_depends_on_items_only s1 s2 H1 H2 Hp).
Defined.

(** X16: a second [rebalance()] changes nothing: the state after two
    calls in a row is the state after one. *)
Theorem rebalance_twice (self : LinkedBST) :
  (rebalance (rebalance self).2).2 = (rebalance self).2.
Proof.
  destruct (_root self) as [|l d r] eqn:Eroot.
  - rewrite (rebalance_empty self Eroot). simpl.
    now rewrite (rebalance_empty self Eroot).
  - destruct (rebalance_nonempty self) as (t & E & Hne & Hp & _); [congruence|].
    rewrite E. simpl.
    rewrite (rebalance_same_items (mkBST t 0) self); [now rewrite E|exact Hne| |].
    + congruence.
    + now rewrite inorder_elements.
Qed.

(** ** States a client can reach *)

(** X17: whatever sequence of [add], [remove] and [rebalance] calls a
    client makes on a fresh tree, the tree is afterwards either intact
    (counter equal to the number of items, items in search order) or a
    non-empty tree whose counter is 0, as a [rebalance] leaves it. *)
Theorem reachable_states (ops : list op) :
  let self := run ops empty_tree in
  consistent self \/ (_size self = 0 /\ _root self <> Absent).
Proof.
  intros self. apply reachable_cases, reachable_run. constructor.
Qed.

(** ** Range query with crossed bounds *)

(** X18: with [high < low], [range_find(low, high)] returns the empty
    list on every tree. *)
Theorem range_find_crossed_bounds (self : LinkedBST) (low high : Z) :
  high < low -> range_find self low high = [].
Proof.
  intros Hlt. unfold range_find. rewrite range_find_fold. simpl.
  induction (inorder self) as [|x l IH]; simpl; [reflexivity|].
  destruct (Z.leb_spec low x), (Z.leb_spec x high); simpl; try lia; exact IH.
Qed.

Lemma range_find_crossed_bounds_witness :
  let self := run [Add 5; Add 3; Add 8] empty_tree in
  3 < 8 /\ range_find self 8 3 = [].
Proof.
  intros self. split; [lia|].
  apply (range_find_crossed_bounds self 8 3). lia.
Defined.

(** ** Structure predicates *)

(** X19: [num_children], [children] and [is_leaf] agree at every
    position, absent or not: the number of children is the length of the
    list of children, every listed child is a node, and a position is a
    leaf exactly when it has no child. *)
Theorem children_agree (position : tree) :
  py_int (num_children position) = Z.of_nat (length (children position))
  /\ Forall (fun c => c <> Absent) (children position)
  /\ (is_leaf position = true <-> children position = []).
Proof.
  destruct position as [|l d r]; [repeat split; constructor|].
  destruct l as [|ll ld lr], r as [|rl rd rr]; simpl;
    (split; [reflexivity|]);
    (split; [repeat constructor; discriminate|]);
    split; try reflexivity; discriminate.
Qed.

(** ** The positional walk *)

(** X20: the positional inorder walk from the root fails exactly on the
    empty tree; otherwise the data of the positions it yields are the
    items of [inorder()], in the same order. *)
Theorem subtree_inorder_yields_inorder (self : LinkedBST) :
  match _subtree_inorder self Absent with
  | Return positions =>
      _root self <> Absent
      /\ mapM get_data positions = Return (inorder self)
  | Raise e => e = AttributeError /\ _root self = Absent
  | OutOfFuel => False
  end.
Proof.
  unfold _subtree_inorder.
  replace (match Absent with Absent => _root self | _ => Absent end)
    with (_root self) by reflexivity.
  destruct (_root self) as [|l d r] eqn:Eroot; [split; reflexivity|].
  destruct (subtree_inorder_walk_data (BSTNode l d r)) as (ps & Ew & Ed);
    [discriminate|].
  rewrite Ew. split; [discriminate|].
  now rewrite inorder_elements, Eroot.
Qed.

(** ** Degenerate trees *)

Lemma depth_chain (l : list Z) : depth (chain l) = Z.of_nat (length l) - 1.
Proof.
  induction l as [|x l IH]; [reflexivity|].
  cbn [chain depth length]. rewrite IH. lia.
Qed.

Lemma add_recurse_chain (x : Z) (l : list Z) :
  l <> [] -> Forall (fun y => y <= x) l ->
  add_recurse x (chain l) = Return (chain (l ++ [x])).
Proof.
  induction l as [|y l IH]; [congruence|]. intros _ Hall.
  apply Forall_cons in Hall as [Hy Hall]. cbn [chain add_recurse app].
  destruct (Z.ltb_spec x y) as [?|_]; [lia|].
  destruct l as [|z l]; [reflexivity|].
  change (chain (z :: l)) with (BSTNode Absent z (chain l)) at 1.
  cbv iota. change (BSTNode Absent z (chain l)) with (chain (z :: l)).
  rewrite IH; [reflexivity|discriminate|exact Hall].
Qed.

Lemma run_adds_chain (l pre : list Z) :
  StronglySorted Z.le (pre ++ l) ->
  run (map Add l) (mkBST (chain pre) (Z.of_nat (length pre)))
  = mkBST (chain (pre ++ l)) (Z.of_nat (length (pre ++ l))).
Proof.
  revert pre. induction l as [|x l IH]; intros pre Hs.
  - now rewrite app_nil_r.
  - cbn [map run fold_left exec].
    assert (Hadd : (add x (mkBST (chain pre) (Z.of_nat (length pre)))).2
                   = mkBST (chain (pre ++ [x]))
                           (Z.of_nat (length (pre ++ [x])))).
    { unfold add, isEmpty. cbn [_size _root].
      replace (Z.of_nat (length (pre ++ [x]))) with (Z.of_nat (length pre) + 1)
        by (rewrite length_app; simpl; lia).
      destruct pre as [|p pre]; [reflexivity|].
      destruct (Z.eqb_spec (Z.of_nat (length (p :: pre))) 0) as [H|_];
        [simpl in H; lia|].
      rewrite add_recurse_chain; [reflexivity|discriminate|].
      apply sorted_app in Hs as (_ & _ & Hall).
      eapply List.Forall_impl; [|exact Hall]. intros y Hy. simpl in Hy.
      now apply Forall_inv in Hy. }
    change (fold_left (fun s o => exec o s) (map Add l)
              (add x (mkBST (chain pre) (Z.of_nat (length pre)))).2)
      with (run (map Add l)
              (add x (mkBST (chain pre) (Z.of_nat (length pre)))).2).
    rewrite Hadd, IH; rewrite <- app_assoc; [reflexivity|exact Hs].
Qed.

(** X21: inserting the items of a non-decreasing sequence one by one
    into the empty tree gives the degenerate tree, every node having a
    right child only, whose height is the number of items less one. *)
Theorem sorted_inserts_degenerate (l : list Z) :
  StronglySorted Z.le l ->
  run (map Add l) empty_tree = mkBST (chain l) (Z.of_nat (length l))
  /\ height (run (map Add l) empty_tree) Absent
     = Return (Z.max 0 (Z.of_nat (length l) - 1)).
Proof.
  intros Hs.
  assert (E : run (map Add l) empty_tree
              = mkBST (chain l) (Z.of_nat (length l))).
  { exact (run_adds_chain l [] Hs). }
  split; [exact E|]. rewrite E.
  change (height (mkBST (chain l) (Z.of_nat (length l))) Absent)
    with (height1 (chain l)).
  now rewrite height1_depth, depth_chain.
Qed.

Lemma sorted_inserts_degenerate_witness :
  let l := [1; 2; 3; 4; 5; 6; 7] in
  StronglySorted Z.le l
  /\ run (map Add l) empty_tree = mkBST (chain l) (Z.of_nat (length l))
  /\ height (run (map Add l) empty_tree) Absent = Return 6.
Proof.
  intros l.
  assert (Hs : StronglySorted Z.le l) by (repeat constructor; lia).
  split; [exact Hs|]. exact (sorted_inserts_degenerate l Hs).
Defined.

(** ** The order rebalance leaves behind *)

Lemma pop_seq_step (its its' : list Z) (x : Z) :
  pop its (floor_half (Z.of_nat (length its))) = Return (x, its') ->
  Z.of_nat (length its') = Z.of_nat (length its) - 1 ->
  pop_seq (length its) its = x :: pop_seq (length its') its'.
Proof.
  intros E Hlen. destruct (length its) as [|m] eqn:Em; [lia|].
  cbn [pop_seq]. rewrite Em, E. do 2 f_equal. lia.
Qed.

(** Each run of the loop body moves items from the front of the pop
    order to the end of the store, and touches no datum already there. *)
Lemma for_body_data (k : nat) (f f' : frame) (res : result flow) :
  lenght f = Z.of_nat (length (items f)) ->
  for_body k f = (res, f') ->
  lenght f' = Z.of_nat (length (items f'))
  /\ map node_data (heap f') ++ pop_seq (length (items f')) (items f')
     = map node_data (heap f) ++ pop_seq (length (items f)) (items f).
Proof.
  destruct f as [h its L nn]. cbn [heap items lenght]. intros HL.
  unfold for_body. cbn [heap items lenght new_nodes new_node].
  destruct (Z.eqb_spec L 0) as [HL0|HL0]; [intros [= <- <-]; now split|].
  destruct (pop_middle its) as (x & its1 & E1 & Hlen1 & _); [lia|].
  rewrite (pop_seq_step _ _ _ E1 Hlen1).
  rewrite <- HL in E1. rewrite E1.
  destruct (Z.eqb_spec (L - 1) 0) as [HL1|HL1].
  - intros [= <- <-]. cbn [heap items lenght]. split; [lia|].
    rewrite set_left_data, map_app, <- app_assoc. reflexivity.
  - destruct (pop_middle its1) as (y & its2 & E2 & Hlen2 & _); [lia|].
    rewrite (pop_seq_step _ _ _ E2 Hlen2).
    replace (Z.of_nat (length its1)) with (L - 1) in E2 by lia. rewrite E2.
    intros [= <- <-]. cbn [heap items lenght]. split; [lia|].
    rewrite set_right_data, map_app, set_left_data, map_app, <- !app_assoc.
    reflexivity.
Qed.

Lemma for_nodes_data (fuel : nat) (nodes : nodes_ref) (i : nat)
      (f f' : frame) (res : result unit) :
  lenght f = Z.of_nat (length (items f)) ->
  for_nodes fuel nodes i f = (res, f') ->
  lenght f' = Z.of_nat (length (items f'))
  /\ map node_data (heap f') ++ pop_seq (length (items f')) (items f')
     = map node_data (heap f) ++ pop_seq (length (items f)) (items f).
Proof.
  revert i f. induction fuel as [|fuel IH]; intros i f HL; cbn [for_nodes].
  - intros [= <- <-]. now split.
  - destruct (deref nodes f !! i) as [node|]; [|intros [= <- <-]; now split].
    destruct (for_body node f) as [r f1] eqn:Eb.
    destruct (for_body_data _ _ _ _ HL Eb) as [HL1 Hd1].
    destruct r as [[|]| |].
    + intros E. destruct (IH _ _ HL1 E) as [HL' Hd'].
      split; [exact HL'|]. now rewrite Hd'.
    + intros [= <- <-]. now split.
    + intros [= <- <-]. now split.
    + intros [= <- <-]. now split.
Qed.

Lemma while_lenght_data (fuel : nat) (nodes : nodes_ref)
      (f f' : frame) (res : result unit) :
  lenght f = Z.of_nat (length (items f)) ->
  while_lenght fuel nodes f = (res, f') ->
  map node_data (heap f') ++ pop_seq (length (items f')) (items f')
  = map node_data (heap f) ++ pop_seq (length (items f)) (items f).
Proof.
  revert nodes f. induction fuel as [|fuel IH]; intros nodes f HL;
    cbn [while_lenght].
  - now intros [= <- <-].
  - destruct (lenght f >? 0); [|now intros [= <- <-]].
    destruct (for_nodes (S (Z.to_nat (lenght f))) nodes 0 f) as [r f1] eqn:Ef.
    destruct (for_nodes_data _ _ _ _ _ _ HL Ef) as [HL1 Hd1].
    destruct r as [u| |].
    + intros E. rewrite (IH _ _ HL1 E). exact Hd1.
    + now intros [= <- <-].
    + now intros [= <- <-].
Qed.

Lemma sorted_lookup_next (l : list Z) (i : nat) (x y : Z) :
  StronglySorted Z.le l ->
  l !! i = Some x -> l !! S i = Some y -> x <= y.
Proof.
  intros Hs. revert i. induction Hs as [|a l Hs IH Ha]; intros i;
    [discriminate|].
  destruct i as [|i]; simpl.
  - intros [= <-] Hy. rewrite List.Forall_forall in Ha. apply Ha.
    apply list_elem_of_In, list_elem_of_lookup. eauto.
  - apply IH.
Qed.

Lemma pop_at (its : list Z) (i : Z) (x : Z) :
  0 <= i -> its !! Z.to_nat i = Some x ->
  pop its i = Return (x, delete (Z.to_nat i) its).
Proof.
  intros Hi Hx. pose proof (lookup_lt_Some _ _ _ Hx) as Hlt. unfold pop.
  destruct (Z.ltb_spec i 0) as [?|_]; [lia|].
  destruct (Z.leb_spec 0 i) as [_|?]; [|lia].
  destruct (Z.ltb_spec i (Z.of_nat (length its))) as [_|?]; [|lia].
  simpl andb. cbv iota. now rewrite Hx.
Qed.

(** X22: [rebalance()] never leaves a tree of two or more pairwise
    different items in search order: the root takes the lower middle item
    of the sorted list and its left child the next greater one, so not
    even the non-strict order holds afterwards. *)
Theorem rebalance_breaks_order (self : LinkedBST) :
  (2 <= length (inorder self))%nat -> NoDup (inorder self) ->
  exists self', rebalance self = (Return tt, self')
                /\ ~ ordered (_root self').
Proof.
  intros Hlen Hnd. rewrite inorder_elements in Hlen, Hnd.
  assert (Hroot : _root self <> Absent).
  { intros E. rewrite E in Hlen. simpl in Hlen. lia. }
  destruct (subtree_inorder_walk_data _ Hroot) as (ps & Ew & Ed).
  unfold rebalance, _subtree_inorder.
  replace (match Absent with Absent => _root self | _ => Absent end)
    with (_root self) by reflexivity.
  rewrite Ew. cbn [mbind result_bind]. rewrite Ed.
  pose proof (sorted_perm (elements (_root self))) as Hsp.
  pose proof (sorted_sorted (elements (_root self))) as Hss.
  pose proof (Permutation_length Hsp) as Hn.
  assert (Hnd' : NoDup (sorted (elements (_root self))))
    by (now rewrite Hsp).
  set (its := sorted (elements (_root self))) in *.
  set (i := floor_half (Z.of_nat (length its) - 1)).
  assert (Hi : 0 <= i /\ i + 1 < Z.of_nat (length its)).
  { unfold i, floor_half. split; [apply Z.div_pos; lia|].
    assert (Hdiv : (Z.of_nat (length its) - 1) / 2
                   < Z.of_nat (length its) - 1)
      by (apply Z.div_lt_upper_bound; lia).
    lia. }
  destruct (lookup_lt_is_Some_2 its (Z.to_nat i)) as [x0 Hx0]; [lia|].
  destruct (lookup_lt_is_Some_2 its (S (Z.to_nat i))) as [x1 Hx1]; [lia|].
  assert (Hlt : x0 < x1).
  { pose proof (sorted_lookup_next _ _ _ _ Hss Hx0 Hx1) as Hle.
    destruct (Z.eq_dec x0 x1) as [<-|Hne]; [|lia].
    pose proof (NoDup_lookup _ _ _ _ Hnd' Hx0 Hx1). lia. }
  rewrite (pop_at its i x0) by tauto.
  set (its1 := delete (Z.to_nat i) its).
  assert (Hlen1 : Z.of_nat (length its1) = Z.of_nat (length its) - 1).
  { unfold its1. rewrite length_delete by (now exists x0). lia. }
  cbn [new_node app length].
  set (f0 := mkFrame [mkCell x0 None None] its1 (Z.of_nat (length its) - 1) []).
  destruct (while_lenght_spec (S (length its1)) f0) as (f' & Ewh & Hh' & _).
  { split; [apply level_order_single|]. simpl. lia. }
  { reflexivity. }
  { simpl. lia. }
  rewrite Ewh.
  pose proof (while_lenght_data _ _ f0 f' _ ltac:(simpl; lia) Ewh) as Hdata.
  cbn [f0 heap items map node_data] in Hdata.
  assert (E2 : pop its1 (floor_half (Z.of_nat (length its1)))
               = Return (x1, delete (Z.to_nat i) its1)).
  { rewrite Hlen1. apply pop_at; [tauto|].
    unfold its1. rewrite list_lookup_delete_ge by lia. exact Hx1. }
  rewrite (pop_seq_step _ _ _ E2) in Hdata.
  2:{ rewrite length_delete; [lia|]. apply lookup_lt_is_Some_2. lia. }
  simpl lenght in Hh'.
  set (c := (1 + Z.to_nat (Z.of_nat (length its) - 1))%nat) in *.
  pose proof Hh' as [Hc _].
  assert (Hcv : c = S (length its1)) by (unfold c; lia).
  assert (Hc2 : (2 <= c)%nat) by lia.
  assert (Hd0 : data_at (heap f') 0 = x0 /\ data_at (heap f') 1 = x1).
  { assert (H0 : (map node_data (heap f') ++
                  pop_seq (length (items f')) (items f')) !! 0%nat = Some x0)
      by (now rewrite Hdata).
    assert (H1 : (map node_data (heap f') ++
                  pop_seq (length (items f')) (items f')) !! 1%nat = Some x1)
      by (now rewrite Hdata).
    rewrite lookup_app_l in H0 by (rewrite length_map; lia).
    rewrite lookup_app_l in H1 by (rewrite length_map; lia).
    change (map node_data (heap f')) with (node_data <$> heap f') in H0, H1.
    rewrite list_lookup_fmap in H0, H1. unfold data_at.
    destruct (heap f' !! 0%nat), (heap f' !! 1%nat); try discriminate.
    simpl in H0, H1. split; congruence. }
  destruct Hd0 as [Hd0 Hd1].
  destruct (read_tree_level_order _ _ Hh' (S (length its1)) 0%nat)
    as (t & Et & _ & _); [lia|lia|].
  rewrite Et. exists (mkBST t 0). split; [reflexivity|]. simpl _root.
  intros Ho. apply ordered_sorted in Ho.
  assert (Hc0 : (0 < c)%nat) by lia.
  rewrite (read_tree_elements c (heap f') Hh' _ _ _ Hc0 Et) in Ho.
  cbn [subtree_addrs] in Ho. case_decide; [|lia].
  rewrite map_app in Ho. cbn [map] in Ho. rewrite Hd0 in Ho.
  apply sorted_app in Ho as (_ & _ & Hall).
  rewrite List.Forall_forall in Hall.
  assert (Hin : In x1 (map (data_at (heap f'))
                           (subtree_addrs (length its1) c (2 * 0 + 1)))).
  { apply in_map_iff. exists 1%nat. split; [exact Hd1|].
    apply below_subtree_addrs; [lia|lia|]. exists 0%nat. simpl. lia. }
  specialize (Hall _ Hin). simpl in Hall. apply Forall_inv in Hall. lia.
Qed.

Lemma rebalance_breaks_order_witness :
  let self := run [Add 1; Add 2] empty_tree in
  (2 <= length (inorder self))%nat /\ NoDup (inorder self)
  /\ exists self', rebalance self = (Return tt, self')
                   /\ ~ ordered (_root self').
Proof.
  intros self.
  assert (Hlen : (2 <= length (inorder self))%nat) by (simpl; lia).
  assert (Hnd : NoDup (inorder self))
    by (apply (bool_decide_unpack _); vm_compute; exact I).
  split; [exact Hlen|]. split; [exact Hnd|].
  exact (rebalance_breaks_order self Hlen Hnd).
Defined.

(** * Behaviour at the edges *)

(** ** The height bound at the empty tree *)

(** C4, as stated, fails at the tree holding no item: [rebalance()]
    raises and leaves the tree empty, [height()] is 0, and the bound
    [ceil(log2(0+1)) - 1] is -1. *)
Lemma height_bound_fails_on_empty_tree :
  let n := Z.of_nat (length (inorder empty_tree)) in
  n = 0
  /\ rebalance empty_tree = (Raise AttributeError, empty_tree)
  /\ height (rebalance empty_tree).2 Absent = Return 0
  /\ Z.log2_up (n + 1) - 1 = -1
  /\ ~ (0 <= Z.log2_up (n + 1) - 1).
Proof.
  repeat split. vm_compute. intros H. now apply H.
Qed.

(** ** Removal after rebalance *)

(** C5: on the tree left by [add(5); add(3); add(8); rebalance()], which
    holds 5 at the root, 8 on its left and 3 on its right with a size
    counter of 0, [remove(3)] raises [KeyError] although 3 is stored, and
    [remove(5)] returns [None], removes nothing and leaves the size as it
    is, although 5 is found. *)
Theorem remove_after_rebalance :
  let self := run [Add 5; Add 3; Add 8; Rebalance] empty_tree in
  reachable self
  /\ self = mkBST (BSTNode (BSTNode Absent 8 Absent) 5 (BSTNode Absent 3 Absent)) 0
  /\ In 3 (inorder self)
  /\ remove 3 self = (Raise KeyError, self)
  /\ contains self 5 = true
  /\ remove 5 self = (Return None, self).
Proof.
  split; [apply reachable_run; constructor|].
  vm_compute. repeat split; auto.
Qed.

(** ** Range query after rebalance *)


(** ** Outcomes of add, remove and height *)

(** X3: when [add(item)] returns, the size has grown by one and
    [find(item)] finds the item, whatever the order of the tree; when it
    raises [AttributeError], the root was absent although the counter was
    not 0, and nothing has changed; it raises no [KeyError], [IndexError]
    or [ValueError]. *)
Theorem add_then_find (self : LinkedBST) (item : Z) :
  match add item self with
  | (Return _, self') =>
      _size self' = _size self + 1
      /\ find self' item = Some item
      /\ contains self' item = true
  | (Raise AttributeError, self') =>
      self' = self /\ _size self <> 0 /\ _root self = Absent
  | (Raise _, _) => False
  | (OutOfFuel, _) => False
  end.
Proof.
  destruct (add_cases self item) as [(Hz & Hroot & E)|(s' & E & H)];
    rewrite E.
  - repeat split; assumption.
  - exact H.
Qed.

(** X5: [remove(item)] raises no [AttributeError], [IndexError] or
    [ValueError] on any tree: [lift] is only called on a node with a left
    child.  When it raises [KeyError], [item] was not found and the tree
    is untouched; when it returns [None], [item] was found, the counter
    was 0 and the tree is untouched; when it returns a value, this is
    [item], the counter is decremented and the occurrence that was found
    is taken out of the inorder sequence (the whole tree being dropped
    when the counter reaches 0). *)
Theorem remove_outcomes (self : LinkedBST) (item : Z) :
  match remove item self with
  | (Raise KeyError, self') => self' = self /\ contains self item = false
  | (Raise _, _) => False
  | (Return None, self') =>
      self' = self /\ contains self item = true /\ _size self = 0
  | (Return (Some x), self') =>
      x = item /\ contains self item = true /\ _size self <> 0
      /\ _size self' = _size self - 1
      /\ exists pre post,
          inorder self = pre ++ item :: post
          /\ inorder self' = if _size self =? 1 then [] else pre ++ post
  | (OutOfFuel, _) => False
  end.
Proof.
  destruct (remove_cases self item)
    as [[Hc E]|[(Hc & Hz & E)|(Hc & Hz & s' & pre & post & E & Hs & H)]];
    rewrite E.
  - split; [reflexivity|exact Hc].
  - repeat split; assumption.
  - repeat split; try assumption. exists pre, post. exact H.
Qed.

(** X11: [height()] raises none of the errors its own code could
    produce: no [ValueError] from [max] over an empty sequence of
    children and no [AttributeError]; on a tree holding [n] items the
    height [h] it returns satisfies [0 <= h <= max(0, n - 1)] and
    [n < 2^(h+1)]: a tree of height [h] holds at most [2^(h+1) - 1]
    items. *)
Theorem height_bounds (self : LinkedBST) :
  let n := Z.of_nat (length (inorder self)) in
  match height self Absent with
  | Return h => 0 <= h <= Z.max 0 (n - 1) /\ n < 2 ^ (h + 1)
  | Raise _ => False
  | OutOfFuel => False
  end.
Proof.
  intros n. destruct (height_value self) as (h & E & H).
  rewrite E. exact H.
Qed.
